(** * The scheduler's active queue with in-flight event tracking

    A shallow embedding of [pkg/scheduler/internal/queue/active_queue.go]
    and the properties of its operations.

    Every method of [activeQueue] runs with [aq.lock] held from entry to
    return, so each call is one atomic transition of the queue state; the
    only place where the lock is released in the middle of a call is
    [cond.Wait()] in the loop of [pop], and the loop changes nothing before it
    waits.  The sequential part of the development therefore presents each
    method as a function from the state to the new state and the returned
    value; the last part adds the condition variable and the goroutines
    parked on it. *)

From Stdlib Require Import ZArith Sorting.Sorted.
From stdpp Require Import gmap strings list fin_maps.

Local Open Scope Z_scope.

(** ** Machine integers *)

(** Go's [int64] (and [int] on 64-bit platforms): arithmetic wraps around in
    two's complement. *)
Definition wrap64 (z : Z) : Z := (z + 2 ^ 63) mod 2 ^ 64 - 2 ^ 63.

Definition MaxInt64 : Z := 2 ^ 63 - 1.

(** ** Data model *)

(** [v1.Pod], reduced to the fields the queue reads: [UID] (the key of
    [inFlightPods]), [Spec.SchedulerName] (metric label), and the fields the
    caller's comparator orders by. *)
Record Pod := {
  Name : string;
  UID : string;
  Priority : Z;
  SchedulerName : string;
}.

Global Instance Pod_eq_dec : EqDecision Pod.
Proof. solve_decision. Defined.

(** [framework.QueuedPodInfo]. *)
Record QueuedPodInfo := {
  pod : Pod;
  Timestamp : Z;
  Attempts : Z;
  UnschedulablePlugins : gset string;
  PendingPlugins : gset string;
}.

Global Instance QueuedPodInfo_eq_dec : EqDecision QueuedPodInfo.
Proof. solve_decision. Defined.

(** Modelled from the spec: [QueuedPodInfo.Update] of the framework package is
    not part of the sources at hand; it makes the entry reflect the new pod by
    replacing the pod pointer (the fields derived from the pod follow it). *)
Definition QueuedPodInfo_Update (pInfo : QueuedPodInfo) (newPod : Pod) : QueuedPodInfo :=
  {| pod := newPod;
     Timestamp := Timestamp pInfo;
     Attempts := Attempts pInfo;
     UnschedulablePlugins := UnschedulablePlugins pInfo;
     PendingPlugins := PendingPlugins pInfo |}.

(** Modelled from the spec: the closed enumeration of cluster event kinds
    ([framework.ClusterEvent] is declared outside the sources at hand). *)
Inductive ClusterEvent :=
| NodeAdd | NodeDelete | NodeAllocatableChange | NodeLabelChange
| NodeTaintChange | NodeConditionChange | NodeAnnotationChange
| NodeSpecUnschedulableChange | PodAdd | PodUpdate | PodDelete.

Global Instance ClusterEvent_eq_dec : EqDecision ClusterEvent.
Proof. solve_decision. Defined.

(** The [interface{}] objects carried by an event: nothing, a pod or a node. *)
Inductive object :=
| nilObj
| podObj (p : Pod)
| nodeObj (name : string).

Global Instance object_eq_dec : EqDecision object.
Proof. solve_decision. Defined.

(** [clusterEvent], the record pushed on the in-flight list. *)
Record clusterEvent := {
  event : ClusterEvent;
  oldObj : object;
  newObj : object;
}.

Global Instance clusterEvent_eq_dec : EqDecision clusterEvent.
Proof. solve_decision. Defined.

Inductive error :=
| ErrEmpty        (* heap: pop on an empty heap *)
| ErrNotFound     (* heap: delete of an absent key *)
| ErrNotInFlight. (* "in flight Pod isn't found in the scheduling queue..." *)

Global Instance error_eq_dec : EqDecision error.
Proof. solve_decision. Defined.

(** ** The keyed priority heap *)

Module heap.

(** Modelled from the spec: item identity, the pod's UID. *)
Definition key (pInfo : QueuedPodInfo) : string := UID (pod pInfo).

(** Modelled from the spec: the package [internal/heap] is not part of the
    sources at hand.  The spec describes a backing array maintaining the
    heap order under the comparator given at construction, and a mapping
    from key to position.  Here the backing array holds the entries with
    the key they were stored under and is kept ordered by the comparator,
    so that the minimum sits at position 0; the position of a key is its
    index in the array. *)
Record Heap := {
  lessFunc : QueuedPodInfo → QueuedPodInfo → bool;
  data : list (string * QueuedPodInfo);
}.

Definition New (less : QueuedPodInfo → QueuedPodInfo → bool) : Heap :=
  {| lessFunc := less; data := [] |}.

Definition with_data (h : Heap) (d : list (string * QueuedPodInfo)) : Heap :=
  {| lessFunc := lessFunc h; data := d |}.

Fixpoint lookup_key (k : string) (d : list (string * QueuedPodInfo))
    : option QueuedPodInfo :=
  match d with
  | [] => None
  | (k', x) :: d' => if decide (k' = k) then Some x else lookup_key k d'
  end.

Fixpoint remove_key (k : string) (d : list (string * QueuedPodInfo))
    : list (string * QueuedPodInfo) :=
  match d with
  | [] => []
  | (k', x) :: d' =>
      if decide (k' = k) then remove_key k d' else (k', x) :: remove_key k d'
  end.

(** Sifting an entry to its place: it goes before the first entry that it
    precedes under the comparator. *)
Fixpoint sift (less : QueuedPodInfo → QueuedPodInfo → bool)
    (k : string) (x : QueuedPodInfo) (d : list (string * QueuedPodInfo))
    : list (string * QueuedPodInfo) :=
  match d with
  | [] => [(k, x)]
  | (k', y) :: d' =>
      if less x y then (k, x) :: (k', y) :: d'
      else (k', y) :: sift less k x d'
  end.

Definition Len (h : Heap) : Z := Z.of_nat (length (data h)).

Definition Get (h : Heap) (pInfo : QueuedPodInfo) : option QueuedPodInfo :=
  lookup_key (key pInfo) (data h).

Definition Has (h : Heap) (pInfo : QueuedPodInfo) : bool :=
  bool_decide (is_Some (Get h pInfo)).

Definition List (h : Heap) : list QueuedPodInfo := (data h).*2.

(** If the key is absent, insert; if present, replace the value and
    re-sift to restore the order. *)
Definition AddOrUpdate (h : Heap) (pInfo : QueuedPodInfo) : Heap :=
  let k := key pInfo in
  if Has h pInfo
  then with_data h (sift (lessFunc h) k pInfo (remove_key k (data h)))
  else with_data h (sift (lessFunc h) k pInfo (data h)).

(** Delete by key; fails with [ErrNotFound] if the key is absent. *)
Definition Delete (h : Heap) (pInfo : QueuedPodInfo) : Heap * option error :=
  if Has h pInfo
  then (with_data h (remove_key (key pInfo) (data h)), None)
  else (h, Some ErrNotFound).

(** Remove and return the minimum under the comparator; fails with
    [ErrEmpty] if the heap is empty. *)
Definition Pop (h : Heap) : Heap * (QueuedPodInfo + error) :=
  match data h with
  | [] => (h, inr ErrEmpty)
  | (_, x) :: d => (with_data h d, inl x)
  end.

(** The heap holds pointers: a caller that changes the object obtained from
    [Get] changes the object stored under that key, at its current
    position and without touching the recorded key. *)
Fixpoint store (k : string) (x : QueuedPodInfo)
    (d : list (string * QueuedPodInfo)) : list (string * QueuedPodInfo) :=
  match d with
  | [] => []
  | (k', y) :: d' =>
      if decide (k' = k) then (k', x) :: d' else (k', y) :: store k x d'
  end.

End heap.

(** ** The in-flight list: Go's [container/list] *)

(** The value of an element of [inFlightEvents]: the [*v1.Pod] of an
    in-flight pod, or a [*clusterEvent]. *)
Inductive entry :=
| PodMarker (p : Pod)
| ClusterEventRecord (e : clusterEvent).

Global Instance entry_eq_dec : EqDecision entry.
Proof. solve_decision. Defined.

Module golist.

(** [*list.Element]: the address of the element (each [PushBack] allocates
    a fresh one) and its [Value]. *)
Record Element := {
  addr : nat;
  Value : entry;
}.

Global Instance Element_eq_dec : EqDecision Element.
Proof. solve_decision. Defined.

(** [*list.List]: the elements from front to back; [fresh] is the next
    address to be allocated. *)
Record List := {
  elems : list Element;
  fresh : nat;
}.

Definition New : List := {| elems := []; fresh := O |}.

Definition PushBack (l : List) (v : entry) : List * Element :=
  let e := {| addr := fresh l; Value := v |} in
  ({| elems := elems l ++ [e]; fresh := S (fresh l) |}, e).

Fixpoint remove_addr (a : nat) (es : list Element) : list Element :=
  match es with
  | [] => []
  | x :: es' =>
      if decide (addr x = a) then es' else x :: remove_addr a es'
  end.

(** [l.Remove(e)] unlinks [e] if it is an element of [l]. *)
Definition Remove (l : List) (e : Element) : List :=
  {| elems := remove_addr (addr e) (elems l); fresh := fresh l |}.

Definition Front (l : List) : option Element := head (elems l).

(** The elements that follow the element at address [a]; nothing if no
    element of the list has that address. *)
Fixpoint following (a : nat) (es : list Element) : list Element :=
  match es with
  | [] => []
  | x :: es' => if decide (addr x = a) then es' else following a es'
  end.

(** [e.Next()]: the next element of the list [e] is linked in, or nil. *)
Definition Next (l : List) (e : Element) : option Element :=
  head (following (addr e) (elems l)).

Definition Len (l : List) : Z := Z.of_nat (length (elems l)).

End golist.

(** ** The active queue *)

(** The fields of [activeQueue] protected by [lock].  The gauge vector
    [metrics.UnschedulableReason] is a package-level variable on whose gauges
    [pop] calls [Dec()].  The calls are carried along with the queue, as a
    map from the labels (plugin, scheduler name) to the sum of the changes
    requested for the gauge with these labels since the queue was
    constructed, minus one for each call of [Dec()].  The gauge itself, a
    floating-point number kept by the metrics library, is not modelled: what
    a call does to its value is outside the queue. *)
Record activeQueue := {
  queue : heap.Heap;
  inFlightPods : gmap string golist.Element;
  inFlightEvents : golist.List;
  schedCycle : Z;
  closed : bool;
  isSchedulingQueueHintEnabled : bool;
  UnschedulableReason : gmap (string * string) Z;
}.

Definition newActiveQueue (queue : heap.Heap) (isSchedulingQueueHintEnabled : bool)
    : activeQueue :=
  {| queue := queue;
     inFlightPods := ∅;
     inFlightEvents := golist.New;
     schedCycle := 0;
     closed := false;
     isSchedulingQueueHintEnabled := isSchedulingQueueHintEnabled;
     UnschedulableReason := ∅ |}.

Definition set_queue (aq : activeQueue) (q : heap.Heap) : activeQueue :=
  {| queue := q;
     inFlightPods := inFlightPods aq;
     inFlightEvents := inFlightEvents aq;
     schedCycle := schedCycle aq;
     closed := closed aq;
     isSchedulingQueueHintEnabled := isSchedulingQueueHintEnabled aq;
     UnschedulableReason := UnschedulableReason aq |}.

Definition set_inFlight (aq : activeQueue)
    (m : gmap string golist.Element) (l : golist.List) : activeQueue :=
  {| queue := queue aq;
     inFlightPods := m;
     inFlightEvents := l;
     schedCycle := schedCycle aq;
     closed := closed aq;
     isSchedulingQueueHintEnabled := isSchedulingQueueHintEnabled aq;
     UnschedulableReason := UnschedulableReason aq |}.

Definition set_schedCycle (aq : activeQueue) (c : Z) : activeQueue :=
  {| queue := queue aq;
     inFlightPods := inFlightPods aq;
     inFlightEvents := inFlightEvents aq;
     schedCycle := c;
     closed := closed aq;
     isSchedulingQueueHintEnabled := isSchedulingQueueHintEnabled aq;
     UnschedulableReason := UnschedulableReason aq |}.

Definition set_closed (aq : activeQueue) (b : bool) : activeQueue :=
  {| queue := queue aq;
     inFlightPods := inFlightPods aq;
     inFlightEvents := inFlightEvents aq;
     schedCycle := schedCycle aq;
     closed := b;
     isSchedulingQueueHintEnabled := isSchedulingQueueHintEnabled aq;
     UnschedulableReason := UnschedulableReason aq |}.

Definition set_decs (aq : activeQueue) (g : gmap (string * string) Z)
    : activeQueue :=
  {| queue := queue aq;
     inFlightPods := inFlightPods aq;
     inFlightEvents := inFlightEvents aq;
     schedCycle := schedCycle aq;
     closed := closed aq;
     isSchedulingQueueHintEnabled := isSchedulingQueueHintEnabled aq;
     UnschedulableReason := g |}.

Module activeQ.

(** The calls a callback may make on the handle it is given: the read-only
    ones of [unlockedActiveQueueReader], and [AddOrUpdate] in addition for
    [unlockedActiveQueuer]. *)
Inductive unlockedReaderCall :=
| callGet (pInfo : QueuedPodInfo)
| callHas (pInfo : QueuedPodInfo).

Inductive unlockedCall :=
| callReader (c : unlockedReaderCall)
| callAddOrUpdate (pInfo : QueuedPodInfo).

Definition unlocked (q : heap.Heap) (c : unlockedCall) : heap.Heap :=
  match c with
  | callReader _ => q
  | callAddOrUpdate pInfo => heap.AddOrUpdate q pInfo
  end.

(** [underLock(fn)]: runs the callback on [aq.queue] with the lock held. *)
Definition underLock (fn : Datatypes.list unlockedCall) (aq : activeQueue) : activeQueue :=
  set_queue aq (foldl unlocked (queue aq) fn).

(** [underRLock(fn)]: the callback can only read. *)
Definition underRLock (fn : Datatypes.list unlockedReaderCall) (aq : activeQueue)
    : activeQueue := aq.

(** [update]: updates the pod in the heap if [oldPodInfo] is already there,
    and returns the entry if updated, nil otherwise.  [pInfo] points at the
    stored entry, so [pInfo.Update(newPod)] changes the entry in place before
    [AddOrUpdate] is called with it. *)
Definition update (newPod : Pod) (oldPodInfo : QueuedPodInfo) (aq : activeQueue)
    : activeQueue * option QueuedPodInfo :=
  match heap.Get (queue aq) oldPodInfo with
  | Some pInfo =>
      let pInfo' := QueuedPodInfo_Update pInfo newPod in
      let q := heap.with_data (queue aq)
                 (heap.store (heap.key oldPodInfo) pInfo' (heap.data (queue aq))) in
      (set_queue aq (heap.AddOrUpdate q pInfo'), Some pInfo')
  | None => (aq, None)
  end.

(** What a call of [pop] does when it holds the lock and evaluates its loop:
    it parks in [cond.Wait()], or it returns. *)
Inductive popResult :=
| popWait
| popReturn (pInfo : option QueuedPodInfo) (err : option error).

(** One call of [Dec()] on the gauge with these labels. *)
Definition Dec (g : gmap (string * string) Z) (labels : string * string)
    : gmap (string * string) Z :=
  <[labels := default 0 (g !! labels) - 1]> g.

Definition pop (aq : activeQueue) : activeQueue * popResult :=
  if decide (heap.Len (queue aq) = 0) then
    if closed aq then (aq, popReturn None None) else (aq, popWait)
  else
    match heap.Pop (queue aq) with
    | (q, inr err) => (set_queue aq q, popReturn None (Some err))
    | (q, inl pInfo) =>
        let aq := set_queue aq q in
        let attempts := wrap64 (Attempts pInfo + 1) in
        let aq := set_schedCycle aq (wrap64 (schedCycle aq + 1)) in
        let aq :=
          if isSchedulingQueueHintEnabled aq then
            let '(l, e) := golist.PushBack (inFlightEvents aq) (PodMarker (pod pInfo)) in
            set_inFlight aq (<[UID (pod pInfo) := e]> (inFlightPods aq)) l
          else aq in
        let aq :=
          set_decs aq
            (set_fold (λ plugin g, Dec g (plugin, SchedulerName (pod pInfo)))
               (UnschedulableReason aq)
               (UnschedulablePlugins pInfo ∪ PendingPlugins pInfo)) in
        (aq, popReturn
               (Some {| pod := pod pInfo;
                        Timestamp := Timestamp pInfo;
                        Attempts := attempts;
                        UnschedulablePlugins := ∅;
                        PendingPlugins := ∅ |})
               None)
    end.

Definition len (aq : activeQueue) : Z := heap.Len (queue aq).

Definition has (pInfo : QueuedPodInfo) (aq : activeQueue) : bool :=
  heap.Has (queue aq) pInfo.

Definition listInFlightEvents (aq : activeQueue) : list entry :=
  golist.Value <$> golist.elems (inFlightEvents aq).

(** The type assertion of [obj.Value] to a pod pointer; it panics on an
    event. *)
Definition assertPod (e : golist.Element) : option Pod :=
  match golist.Value e with
  | PodMarker p => Some p
  | ClusterEventRecord _ => None
  end.

(** The pods of the elements recorded in [inFlightPods]; [None] stands for
    the panic of the type assertion.  The order of iteration over a Go map is
    not fixed; the model takes the order of the keys. *)
Definition listInFlightPods (aq : activeQueue) : option (Datatypes.list Pod) :=
  mapM assertPod (map_to_list (inFlightPods aq)).*2.

(** The loop of [clusterEventsForPod] over the elements after the marker:
    cluster events are collected, pods of other attempts are skipped. *)
Fixpoint collectEvents (es : list golist.Element) : list clusterEvent :=
  match es with
  | [] => []
  | e :: es' =>
      match golist.Value e with
      | ClusterEventRecord ev => ev :: collectEvents es'
      | PodMarker _ => collectEvents es'
      end
  end.

Definition clusterEventsForPod (pInfo : QueuedPodInfo) (aq : activeQueue)
    : list clusterEvent * option error :=
  match inFlightPods aq !! UID (pod pInfo) with
  | None => ([], Some ErrNotInFlight)
  | Some inFlightPod =>
      (collectEvents
         (golist.following (golist.addr inFlightPod)
            (golist.elems (inFlightEvents aq))),
       None)
  end.

Definition addEventIfPodInFlight (oldPod newPod : Pod) (ev : ClusterEvent)
    (aq : activeQueue) : activeQueue * bool :=
  match inFlightPods aq !! UID newPod with
  | Some _ =>
      let '(l, _) :=
        golist.PushBack (inFlightEvents aq)
          (ClusterEventRecord
             {| event := ev; oldObj := podObj oldPod; newObj := podObj newPod |}) in
      (set_inFlight aq (inFlightPods aq) l, true)
  | None => (aq, false)
  end.

Definition addEventIfAnyInFlight (oldObj newObj : object) (ev : ClusterEvent)
    (aq : activeQueue) : activeQueue * bool :=
  if decide (size (inFlightPods aq) ≠ O) then
    let '(l, _) :=
      golist.PushBack (inFlightEvents aq)
        (ClusterEventRecord {| event := ev; oldObj := oldObj; newObj := newObj |}) in
    (set_inFlight aq (inFlightPods aq) l, true)
  else (aq, false).

Definition schedulingCycle (aq : activeQueue) : Z := schedCycle aq.

(** The pruning loop of [done]: as long as the front element is a cluster
    event it is removed.  Every round removes one element, so the length of
    the list bounds the number of rounds. *)
Fixpoint pruneFront (rounds : nat) (l : golist.List) : golist.List :=
  match rounds with
  | O => l
  | S n =>
      match golist.Front l with
      | None => l
      | Some e =>
          match golist.Value e with
          | ClusterEventRecord _ => pruneFront n (golist.Remove l e)
          | PodMarker _ => l
          end
      end
  end.

Definition done (uid : string) (aq : activeQueue) : activeQueue :=
  match inFlightPods aq !! uid with
  | None => aq
  | Some inFlightPod =>
      let m := base.delete uid (inFlightPods aq) in
      let l := golist.Remove (inFlightEvents aq) inFlightPod in
      set_inFlight aq m (pruneFront (length (golist.elems l)) l)
  end.

Definition close (aq : activeQueue) : activeQueue := set_closed aq true.

Definition delete (pInfo : QueuedPodInfo) (aq : activeQueue)
    : activeQueue * option error :=
  let '(q, err) := heap.Delete (queue aq) pInfo in (set_queue aq q, err).

Definition list (aq : activeQueue) : Datatypes.list Pod := pod <$> heap.List (queue aq).

End activeQ.

(** ** Sequences of calls *)

(** The methods of [activeQueuer]. *)
Inductive Op :=
| OpUnderLock (fn : list activeQ.unlockedCall)
| OpUnderRLock (fn : list activeQ.unlockedReaderCall)
| OpUpdate (newPod : Pod) (oldPodInfo : QueuedPodInfo)
| OpDelete (pInfo : QueuedPodInfo)
| OpPop
| OpList
| OpLen
| OpHas (pInfo : QueuedPodInfo)
| OpListInFlightEvents
| OpListInFlightPods
| OpClusterEventsForPod (pInfo : QueuedPodInfo)
| OpAddEventIfPodInFlight (oldPod newPod : Pod) (ev : ClusterEvent)
| OpAddEventIfAnyInFlight (oldObj newObj : object) (ev : ClusterEvent)
| OpSchedulingCycle
| OpDone (uid : string)
| OpClose
| OpBroadcast.

Global Instance unlockedReaderCall_eq_dec : EqDecision activeQ.unlockedReaderCall.
Proof. solve_decision. Defined.

Global Instance unlockedCall_eq_dec : EqDecision activeQ.unlockedCall.
Proof. solve_decision. Defined.

Global Instance Op_eq_dec : EqDecision Op.
Proof. solve_decision. Defined.

(** What a call hands back to its caller. *)
Inductive Ret :=
| RetNone
| RetPodInfo (pInfo : option QueuedPodInfo)
| RetError (err : option error)
| RetPop (r : activeQ.popResult)
| RetPods (pods : list Pod)
| RetInt (n : Z)
| RetBool (b : bool)
| RetEntries (values : list entry)
| RetPanic
| RetEvents (events : list clusterEvent) (err : option error).

(** One call, atomically under the lock.  A [pop] that finds the heap empty
    and the queue open parks without having changed anything; the pod it
    returns later is the one of a [pop] issued at the moment it wakes up and
    finds the heap non-empty. *)
Definition exec (o : Op) (aq : activeQueue) : activeQueue * Ret :=
  match o with
  | OpUnderLock fn => (activeQ.underLock fn aq, RetNone)
  | OpUnderRLock fn => (activeQ.underRLock fn aq, RetNone)
  | OpUpdate newPod oldPodInfo =>
      let '(aq', r) := activeQ.update newPod oldPodInfo aq in (aq', RetPodInfo r)
  | OpDelete pInfo =>
      let '(aq', err) := activeQ.delete pInfo aq in (aq', RetError err)
  | OpPop => let '(aq', r) := activeQ.pop aq in (aq', RetPop r)
  | OpList => (aq, RetPods (activeQ.list aq))
  | OpLen => (aq, RetInt (activeQ.len aq))
  | OpHas pInfo => (aq, RetBool (activeQ.has pInfo aq))
  | OpListInFlightEvents => (aq, RetEntries (activeQ.listInFlightEvents aq))
  | OpListInFlightPods =>
      match activeQ.listInFlightPods aq with
      | Some pods => (aq, RetPods pods)
      | None => (aq, RetPanic)
      end
  | OpClusterEventsForPod pInfo =>
      let '(events, err) := activeQ.clusterEventsForPod pInfo aq in
      (aq, RetEvents events err)
  | OpAddEventIfPodInFlight oldPod newPod ev =>
      let '(aq', b) := activeQ.addEventIfPodInFlight oldPod newPod ev aq in
      (aq', RetBool b)
  | OpAddEventIfAnyInFlight oldObj newObj ev =>
      let '(aq', b) := activeQ.addEventIfAnyInFlight oldObj newObj ev aq in
      (aq', RetBool b)
  | OpSchedulingCycle => (aq, RetInt (activeQ.schedulingCycle aq))
  | OpDone uid => (activeQ.done uid aq, RetNone)
  | OpClose => (activeQ.close aq, RetNone)
  | OpBroadcast => (aq, RetNone)
  end.

(** The state after a sequence of calls, and what the calls returned. *)
Fixpoint run (ops : list Op) (aq : activeQueue) : activeQueue :=
  match ops with
  | [] => aq
  | o :: ops' => run ops' (exec o aq).1
  end.

Fixpoint returns (ops : list Op) (aq : activeQueue) : list Ret :=
  match ops with
  | [] => []
  | o :: ops' => (exec o aq).2 :: returns ops' (exec o aq).1
  end.

(** The states a queue can be in: those a sequence of calls leads to from a
    newly constructed queue. *)
Inductive reachable : activeQueue → Prop :=
| reachable_new q hints : reachable (newActiveQueue q hints)
| reachable_exec o aq : reachable aq → reachable (exec o aq).1.

(** The pod a call returned, if it is a [pop] that returned one. *)
Definition poppedPod (r : Ret) : option QueuedPodInfo :=
  match r with
  | RetPop (activeQ.popReturn (Some pInfo) _) => Some pInfo
  | _ => None
  end.

(** The number of successful pops of a sequence of calls. *)
Definition successfulPops (ops : list Op) (aq : activeQueue) : nat :=
  length (omap poppedPod (returns ops aq)).

(** The event a call appended to the in-flight list, if it did. *)
Definition appendedEvent (o : Op) (r : Ret) : option clusterEvent :=
  match o, r with
  | OpAddEventIfPodInFlight oldPod newPod ev, RetBool true =>
      Some {| event := ev; oldObj := podObj oldPod; newObj := podObj newPod |}
  | OpAddEventIfAnyInFlight oldObj newObj ev, RetBool true =>
      Some {| event := ev; oldObj := oldObj; newObj := newObj |}
  | _, _ => None
  end.

(** The events appended by a sequence of calls, in the order of the calls. *)
Fixpoint appendedEvents (ops : list Op) (aq : activeQueue) : list clusterEvent :=
  match ops with
  | [] => []
  | o :: ops' =>
      match appendedEvent o (exec o aq).2 with
      | Some e => e :: appendedEvents ops' (exec o aq).1
      | None => appendedEvents ops' (exec o aq).1
      end
  end.

(** The UIDs of the pods returned by the pops of a sequence of calls. *)
Definition poppedUIDs (ops : list Op) (aq : activeQueue) : list string :=
  (λ pInfo, UID (pod pInfo)) <$> omap poppedPod (returns ops aq).

(** ** Abbreviations for results *)

(** The pod info that [pop] hands out for the entry [pInfo] at the head of
    the heap: one more attempt, plugin sets cleared. *)
Definition popped (pInfo : QueuedPodInfo) : QueuedPodInfo :=
  {| pod := pod pInfo;
     Timestamp := Timestamp pInfo;
     Attempts := wrap64 (Attempts pInfo + 1);
     UnschedulablePlugins := ∅;
     PendingPlugins := ∅ |}.

(** The list after [PushBack]. *)
Definition pushed (l : golist.List) (v : entry) : golist.List :=
  {| golist.elems := golist.elems l ++ [{| golist.addr := golist.fresh l; golist.Value := v |}];
     golist.fresh := S (golist.fresh l) |}.

(** ** Invariants of the in-flight bookkeeping *)

Definition isPodMarker (v : entry) : bool :=
  match v with
  | PodMarker _ => true
  | ClusterEventRecord _ => false
  end.

(** The front of the list, if there is one, is the pod of an in-flight
    attempt. *)
Definition frontIsPodMarker (l : golist.List) : Prop :=
  match golist.Front l with
  | None => True
  | Some e => isPodMarker (golist.Value e) = true
  end.

(** What [done]'s pruning loop leaves of a list: the leading cluster events
    are gone. *)
Fixpoint dropEvents (es : list golist.Element) : list golist.Element :=
  match es with
  | [] => []
  | e :: es' =>
      match golist.Value e with
      | ClusterEventRecord _ => dropEvents es'
      | PodMarker _ => es
      end
  end.

(** The element recorded for a UID is linked in the list and holds a pod with
    that UID; elements have distinct addresses, all of them allocated; the
    front of the list is a pod. *)
Record inFlightConsistent (aq : activeQueue) : Prop := {
  recorded_linked :
    ∀ uid e, inFlightPods aq !! uid = Some e →
      e ∈ golist.elems (inFlightEvents aq) ∧
      ∃ p, golist.Value e = PodMarker p ∧ UID p = uid;
  addrs_distinct : NoDup (golist.addr <$> golist.elems (inFlightEvents aq));
  addrs_allocated :
    ∀ e, e ∈ golist.elems (inFlightEvents aq) →
      (golist.addr e < golist.fresh (inFlightEvents aq))%nat;
  front_marker : frontIsPodMarker (inFlightEvents aq);
}.

(** Every pod in the list is the element recorded for its UID.  This holds as
    long as no pod is popped again while it is still in flight. *)
Definition markersRecorded (aq : activeQueue) : Prop :=
  ∀ e p, e ∈ golist.elems (inFlightEvents aq) →
    golist.Value e = PodMarker p → inFlightPods aq !! UID p = Some e.

(** The callers' discipline under which this holds: every pod that a [pop] of
    the sequence returns is not in flight at that moment. *)
Fixpoint popsOnlyQueued (ops : list Op) (aq : activeQueue) : Prop :=
  match ops with
  | [] => True
  | o :: ops' =>
      (∀ x, poppedPod (exec o aq).2 = Some x →
         inFlightPods aq !! UID (pod x) = None) ∧
      popsOnlyQueued ops' (exec o aq).1
  end.

Definition objectUID (o : object) : option string :=
  match o with
  | podObj p => Some (UID p)
  | nilObj | nodeObj _ => None
  end.

(** An entry of the in-flight list refers to a UID: it is the pod with that
    UID, or an event one of whose objects is a pod with that UID. *)
Definition references (uid : string) (v : entry) : Prop :=
  match v with
  | PodMarker p => UID p = uid
  | ClusterEventRecord ev =>
      objectUID (oldObj ev) = Some uid ∨ objectUID (newObj ev) = Some uid
  end.

(** ** Well-formed heaps *)

(** The comparator is a strict weak order. *)
Record strictWeakOrder (less : QueuedPodInfo → QueuedPodInfo → bool) : Prop := {
  less_asym : ∀ a b, less a b = true → less b a = false;
  less_negtrans : ∀ a b c, less a b = false → less b c = false → less a c = false;
}.

(** [b] does not come strictly before [a]. *)
Definition notAfter (less : QueuedPodInfo → QueuedPodInfo → bool)
    (a b : string * QueuedPodInfo) : Prop := less b.2 a.2 = false.

(** Keys are unique, every entry is stored under its own key, and the array
    is in comparator order. *)
Record heapWellFormed (h : heap.Heap) : Prop := {
  heap_less : strictWeakOrder (heap.lessFunc h);
  heap_keys : NoDup (heap.data h).*1;
  heap_keyed : ∀ k x, (k, x) ∈ heap.data h → heap.key x = k;
  heap_ordered : StronglySorted (notAfter (heap.lessFunc h)) (heap.data h);
}.

(** ** Goroutines and the condition variable *)

(** A goroutine that has called [pop]: parked in [cond.Wait()] (the lock is
    released), woken up (it will take the lock again and re-evaluate the loop
    of [pop]), or returned from [pop]. *)
Inductive goroutine :=
| Parked
| Woken
| Returned (pInfo : option QueuedPodInfo) (err : option error).

Global Instance goroutine_eq_dec : EqDecision goroutine.
Proof. solve_decision. Defined.

Record system := {
  sys_queue : activeQueue;
  callers : gmap nat goroutine;
}.

(** What happens next: goroutine [g] calls a method; a parked goroutine is
    woken up on its own (a wake-up not caused by [broadcast]); a woken
    goroutine gets the lock back and continues in the loop of [pop]. *)
Inductive action :=
| ActCall (g : nat) (o : Op)
| ActWake (g : nat)
| ActResume (g : nat).

Definition afterLoop (r : activeQ.popResult) : goroutine :=
  match r with
  | activeQ.popWait => Parked
  | activeQ.popReturn pInfo err => Returned pInfo err
  end.

(** [cond.Broadcast()] wakes all goroutines waiting on the condition. *)
Definition wake (g : goroutine) : goroutine :=
  match g with
  | Parked => Woken
  | Woken => Woken
  | Returned pInfo err => Returned pInfo err
  end.

(** A goroutine inside [pop] cannot make another call.  A call of [pop]
    evaluates the loop; so does a woken goroutine when it resumes, since
    [Wait] returns inside the loop with the lock held.  Every other method
    runs to completion under the lock. *)
Definition sys_step (a : action) (s : system) : system :=
  match a with
  | ActCall g o =>
      match callers s !! g with
      | Some Parked | Some Woken => s
      | _ =>
          match o with
          | OpPop =>
              let '(aq, r) := activeQ.pop (sys_queue s) in
              {| sys_queue := aq; callers := <[g := afterLoop r]> (callers s) |}
          | OpBroadcast =>
              {| sys_queue := sys_queue s; callers := wake <$> callers s |}
          | _ =>
              {| sys_queue := (exec o (sys_queue s)).1; callers := callers s |}
          end
      end
  | ActWake g =>
      match callers s !! g with
      | Some Parked =>
          {| sys_queue := sys_queue s; callers := <[g := Woken]> (callers s) |}
      | _ => s
      end
  | ActResume g =>
      match callers s !! g with
      | Some Woken =>
          let '(aq, r) := activeQ.pop (sys_queue s) in
          {| sys_queue := aq; callers := <[g := afterLoop r]> (callers s) |}
      | _ => s
      end
  end.

Fixpoint sys_run (acts : list action) (s : system) : system :=
  match acts with
  | [] => s
  | a :: acts' => sys_run acts' (sys_step a s)
  end.

(** ** Sample data *)

(** A comparator in the manner of the scheduler's: higher priority first,
    then earlier timestamp. *)
Definition sampleLess (a b : QueuedPodInfo) : bool :=
  if decide (Priority (pod a) = Priority (pod b))
  then bool_decide (Timestamp a < Timestamp b)
  else bool_decide (Priority (pod b) < Priority (pod a)).

Definition samplePod (uid : string) (priority : Z) : Pod :=
  {| Name := uid; UID := uid; Priority := priority; SchedulerName := "default-scheduler" |}.

Definition sampleInfo (uid : string) (priority timestamp : Z) : QueuedPodInfo :=
  {| pod := samplePod uid priority;
     Timestamp := timestamp;
     Attempts := 0;
     UnschedulablePlugins := ∅;
     PendingPlugins := ∅ |}.

Definition add (pInfo : QueuedPodInfo) : Op :=
  OpUnderLock [activeQ.callAddOrUpdate pInfo].

(** [n] rounds of enqueueing a pod and popping it. *)
Fixpoint addPopRounds (pInfo : QueuedPodInfo) (n : nat) : list Op :=
  match n with
  | O => []
  | S n' => add pInfo :: OpPop :: addPopRounds pInfo n'
  end.

(** ** Further notions *)

(** A pod of the list that [inFlightPods] does not record.  The map holds
    one element per UID, so the element of a pod is left unrecorded when a
    later [pop] returns a pod with the same UID and records the new element
    in its place. *)
Definition orphaned (aq : activeQueue) (e : golist.Element) : Prop :=
  e ∈ golist.elems (inFlightEvents aq) ∧
  isPodMarker (golist.Value e) = true ∧
  ∀ uid, inFlightPods aq !! uid ≠ Some e.

(** The number of calls of [Dec()] made on the gauge with the labels
    (plugin, scheduler name) since the queue was constructed. *)
Definition decCalls (aq : activeQueue) (plugin schedulerName : string) : Z :=
  - default 0 (UnschedulableReason aq !! (plugin, schedulerName)).

(** * Properties *)

(** ** Machine arithmetic *)

Lemma wrap64_small z : - 2 ^ 63 ≤ z < 2 ^ 63 → wrap64 z = z.
Proof.
  intros Hz. unfold wrap64.
  rewrite Z.mod_small; lia.
Qed.

Lemma wrap64_range z : - 2 ^ 63 ≤ wrap64 z < 2 ^ 63.
Proof.
  unfold wrap64.
  pose proof (Z.mod_pos_bound (z + 2 ^ 63) (2 ^ 64) ltac:(lia)). lia.
Qed.

Lemma wrap64_add_l a b : wrap64 (wrap64 a + b) = wrap64 (a + b).
Proof.
  unfold wrap64. f_equal.
  replace ((a + 2 ^ 63) mod 2 ^ 64 - 2 ^ 63 + b + 2 ^ 63)
    with ((a + 2 ^ 63) mod 2 ^ 64 + b) by lia.
  rewrite Zplus_mod_idemp_l. f_equal. lia.
Qed.

Lemma wrap64_MaxInt64_succ : wrap64 (MaxInt64 + 1) = - 2 ^ 63.
Proof. reflexivity. Qed.

(** ** The heap *)

Lemma heap_Len_zero h : heap.Len h = 0 ↔ heap.data h = [].
Proof.
  unfold heap.Len. destruct (heap.data h); simpl; split; intros; (done || lia).
Qed.

Lemma heap_Pop_nonempty h :
  heap.Len h ≠ 0 →
  ∃ k x d, heap.data h = (k, x) :: d ∧ heap.Pop h = (heap.with_data h d, inl x).
Proof.
  intros Hlen. unfold heap.Pop.
  destruct (heap.data h) as [|[k x] d] eqn:Hd.
  - exfalso. apply Hlen. by apply heap_Len_zero.
  - by exists k, x, d.
Qed.

Lemma heap_Pop_empty h : heap.Len h = 0 → heap.Pop h = (h, inr ErrEmpty).
Proof.
  intros Hlen%heap_Len_zero. unfold heap.Pop. by rewrite Hlen.
Qed.

(** ** pop *)

Lemma pop_empty_closed aq :
  heap.Len (queue aq) = 0 → closed aq = true →
  activeQ.pop aq = (aq, activeQ.popReturn None None).
Proof.
  intros Hlen Hc. unfold activeQ.pop.
  rewrite decide_True by done. by rewrite Hc.
Qed.

Lemma pop_empty_open aq :
  heap.Len (queue aq) = 0 → closed aq = false →
  activeQ.pop aq = (aq, activeQ.popWait).
Proof.
  intros Hlen Hc. unfold activeQ.pop.
  rewrite decide_True by done. by rewrite Hc.
Qed.

Lemma pop_nonempty aq :
  heap.Len (queue aq) ≠ 0 →
  ∃ k x d aq',
    heap.data (queue aq) = (k, x) :: d ∧
    activeQ.pop aq = (aq', activeQ.popReturn (Some (popped x)) None) ∧
    queue aq' = heap.with_data (queue aq) d ∧
    schedCycle aq' = wrap64 (schedCycle aq + 1) ∧
    closed aq' = closed aq ∧
    isSchedulingQueueHintEnabled aq' = isSchedulingQueueHintEnabled aq ∧
    (if isSchedulingQueueHintEnabled aq
     then inFlightEvents aq' = (golist.PushBack (inFlightEvents aq) (PodMarker (pod x))).1
          ∧ inFlightPods aq' =
              <[UID (pod x) := (golist.PushBack (inFlightEvents aq) (PodMarker (pod x))).2]>
                (inFlightPods aq)
     else inFlightEvents aq' = inFlightEvents aq ∧ inFlightPods aq' = inFlightPods aq).
Proof.
  intros Hlen.
  destruct (heap_Pop_nonempty _ Hlen) as (k & x & d & Hd & HPop).
  unfold activeQ.pop. rewrite decide_False by done. rewrite HPop.
  exists k, x, d. eexists. split; [done|]. split; [reflexivity|].
  unfold golist.PushBack.
  destruct (isSchedulingQueueHintEnabled aq) eqn:Hh; simpl; rewrite ?Hh; done.
Qed.

Lemma pop_cases aq :
  (heap.Len (queue aq) = 0 ∧ closed aq = false ∧
   activeQ.pop aq = (aq, activeQ.popWait)) ∨
  (heap.Len (queue aq) = 0 ∧ closed aq = true ∧
   activeQ.pop aq = (aq, activeQ.popReturn None None)) ∨
  (heap.Len (queue aq) ≠ 0 ∧
   ∃ x, activeQ.pop aq = ((activeQ.pop aq).1, activeQ.popReturn (Some (popped x)) None)).
Proof.
  destruct (decide (heap.Len (queue aq) = 0)) as [Hlen|Hlen].
  - destruct (closed aq) eqn:Hc.
    + right; left. eauto using pop_empty_closed.
    + left. eauto using pop_empty_open.
  - right; right. split; [done|].
    destruct (pop_nonempty aq Hlen) as (k & x & d & aq' & _ & Hpop & _).
    exists x. by rewrite Hpop.
Qed.

(** ** What a call leaves alone *)

Ltac unfold_ops :=
  unfold activeQ.underLock, activeQ.underRLock, activeQ.update, activeQ.delete,
    activeQ.addEventIfPodInFlight, activeQ.addEventIfAnyInFlight,
    activeQ.clusterEventsForPod, activeQ.done, activeQ.close, heap.Delete,
    golist.PushBack.

Lemma exec_not_pop_schedCycle o aq :
  o ≠ OpPop → schedCycle (exec o aq).1 = schedCycle aq.
Proof.
  intros Ho. destruct o; try done; simpl; unfold_ops;
    repeat case_match; simplify_eq/=; done.
Qed.

Lemma exec_not_pop_poppedPod o aq : o ≠ OpPop → poppedPod (exec o aq).2 = None.
Proof.
  intros Ho. destruct o; try done; simpl; unfold_ops;
    repeat case_match; simplify_eq/=; done.
Qed.

Lemma exec_schedCycle o aq :
  schedCycle (exec o aq).1 =
    match poppedPod (exec o aq).2 with
    | Some _ => wrap64 (schedCycle aq + 1)
    | None => schedCycle aq
    end.
Proof.
  destruct (decide (o = OpPop)) as [->|Ho].
  - simpl. destruct (pop_cases aq) as [(_ & _ & H)|[(_ & _ & H)|(Hlen & x & H)]];
      rewrite H; simpl; try done.
    destruct (pop_nonempty aq Hlen) as (k & x' & d & aq' & _ & Hpop & _ & Hc & _).
    rewrite Hpop in H |- *. by simplify_eq/=.
  - by rewrite exec_not_pop_schedCycle, exec_not_pop_poppedPod.
Qed.


Lemma exec_hints o aq :
  isSchedulingQueueHintEnabled (exec o aq).1 = isSchedulingQueueHintEnabled aq.
Proof.
  destruct (decide (o = OpPop)) as [->|Ho].
  - simpl. destruct (pop_cases aq) as [(_ & _ & H)|[(_ & _ & H)|(Hlen & x & H)]];
      rewrite H; simpl; try done.
    destruct (pop_nonempty aq Hlen) as (k & x' & d & aq' & _ & Hpop & _ & _ & _ & Hh & _).
    rewrite Hpop in H |- *. by simplify_eq/=.
  - destruct o; try done; simpl; unfold_ops;
      repeat case_match; simplify_eq/=; done.
Qed.


Lemma run_hints ops aq :
  isSchedulingQueueHintEnabled (run ops aq) = isSchedulingQueueHintEnabled aq.
Proof.
  revert aq. induction ops as [|o ops IH]; intros aq; simpl; [done|].
  by rewrite IH, exec_hints.
Qed.


Lemma reachable_run ops aq : reachable aq → reachable (run ops aq).
Proof.
  revert aq. induction ops as [|o ops IH]; intros aq Hr; simpl; [done|].
  apply IH. by constructor.
Qed.

Lemma pop_nonempty_head aq :
  heap.Len (queue aq) ≠ 0 →
  ∃ x, head (heap.List (queue aq)) = Some x ∧
       (activeQ.pop aq).2 = activeQ.popReturn (Some (popped x)) None.
Proof.
  intros Hlen.
  destruct (pop_nonempty aq Hlen) as (k & x & d & aq' & Hd & Hpop & _).
  exists x. unfold heap.List. rewrite Hd, Hpop. done.
Qed.

(** ** Closing the queue *)




(** ** The error of pop *)

(** C10.  Whenever [pop] returns, its error is nil: it returns a pod, or
    (nil, nil) when the queue is closed and the heap is empty.  The heap's
    [Pop] is only reached with a non-empty heap, where it succeeds; with an
    empty heap [pop] waits or returns without touching the queue. *)
Theorem pop_error_is_nil (aq : activeQueue) :
  match (activeQ.pop aq).2 with
  | activeQ.popWait => heap.Len (queue aq) = 0 ∧ closed aq = false
  | activeQ.popReturn pInfo err =>
      err = None ∧
      match pInfo with
      | Some _ => heap.Len (queue aq) ≠ 0
      | None => heap.Len (queue aq) = 0 ∧ closed aq = true
      end
  end ∧
  (heap.Len (queue aq) ≠ 0 → ∃ q x, heap.Pop (queue aq) = (q, inl x)) ∧
  (heap.Len (queue aq) = 0 → (activeQ.pop aq).1 = aq).
Proof.
  split; [|split].
  - destruct (pop_cases aq) as [(? & ? & H)|[(? & ? & H)|(? & x & H)]];
      rewrite H; simpl; done.
  - intros Hlen. destruct (heap_Pop_nonempty _ Hlen) as (k & x & d & _ & H).
    eauto.
  - intros Hlen.
    destruct (pop_cases aq) as [(? & ? & H)|[(? & ? & H)|(? & x & H)]];
      [by rewrite H..|done].
Qed.

(** ** clusterEventsForPod: the error *)

(** C6.  [clusterEventsForPod] fails exactly when the pod's UID is not a key
    of [inFlightPods], with the not-in-flight error; when the UID is a key it
    returns the events after the recorded element with a nil error; and the
    call, failing or not, leaves the queue as it was. *)
Theorem clusterEventsForPod_error_iff (aq : activeQueue) (pInfo : QueuedPodInfo) :
  ((activeQ.clusterEventsForPod pInfo aq).2 ≠ None ↔
     inFlightPods aq !! UID (pod pInfo) = None) ∧
  (inFlightPods aq !! UID (pod pInfo) = None →
     activeQ.clusterEventsForPod pInfo aq = ([], Some ErrNotInFlight)) ∧
  (∀ e, inFlightPods aq !! UID (pod pInfo) = Some e →
     activeQ.clusterEventsForPod pInfo aq =
       (activeQ.collectEvents
          (golist.following (golist.addr e) (golist.elems (inFlightEvents aq))),
        None)) ∧
  (exec (OpClusterEventsForPod pInfo) aq).1 = aq.
Proof.
  unfold activeQ.clusterEventsForPod.
  split; [|split; [|split]].
  - destruct (inFlightPods aq !! UID (pod pInfo)); simpl; split; congruence.
  - by intros ->.
  - by intros e ->.
  - simpl. by destruct (activeQ.clusterEventsForPod pInfo aq).
Qed.

(** ** done: calling it again *)

Lemma done_not_in_flight aq uid :
  inFlightPods aq !! uid = None → activeQ.done uid aq = aq.
Proof. intros H. unfold activeQ.done. by rewrite H. Qed.

Lemma done_key_gone aq uid : inFlightPods (activeQ.done uid aq) !! uid = None.
Proof.
  unfold activeQ.done. destruct (inFlightPods aq !! uid) eqn:H; [|done].
  simpl. apply lookup_delete_eq.
Qed.

(** C8.  [done] on a UID that is not a key of [inFlightPods] returns with the
    whole queue state unchanged; since [done] removes the UID from
    [inFlightPods], a second [done] with the same UID changes nothing. *)
Theorem done_idempotent (aq : activeQueue) (uid : string) :
  (inFlightPods aq !! uid = None → activeQ.done uid aq = aq) ∧
  inFlightPods (activeQ.done uid aq) !! uid = None ∧
  activeQ.done uid (activeQ.done uid aq) = activeQ.done uid aq.
Proof.
  split; [apply done_not_in_flight|]. split; [apply done_key_gone|].
  apply done_not_in_flight, done_key_gone.
Qed.

(** ** Hints disabled *)

Lemma exec_untracked o aq :
  isSchedulingQueueHintEnabled aq = false →
  inFlightPods aq = ∅ →
  inFlightPods (exec o aq).1 = ∅ ∧ inFlightEvents (exec o aq).1 = inFlightEvents aq.
Proof.
  intros Hh Hm. destruct (decide (o = OpPop)) as [->|Ho].
  - simpl. destruct (pop_cases aq) as [(_ & _ & H)|[(_ & _ & H)|(Hlen & x & H)]];
      rewrite H; simpl; try done.
    destruct (pop_nonempty aq Hlen) as (k & x' & d & aq' & _ & Hpop & _ & _ & _ & _ & Hf).
    rewrite Hpop in H |- *. simplify_eq/=. rewrite Hh in Hf.
    destruct Hf as [-> ->]. done.
  - destruct o; try done; simpl; unfold_ops; rewrite ?Hm, ?lookup_empty;
      repeat case_match; simplify_eq/=; done.
Qed.

(** C4.  A queue constructed with hints disabled never records anything:
    after every sequence of calls [inFlightPods] and the in-flight list are
    empty, [clusterEventsForPod] returns the not-in-flight error, and both
    event-recording calls return false and leave the queue unchanged. *)
Theorem hints_disabled_records_nothing (q : heap.Heap) (ops : list Op) :
  let aq := run ops (newActiveQueue q false) in
  inFlightPods aq = ∅ ∧
  inFlightEvents aq = golist.New ∧
  (∀ pInfo, activeQ.clusterEventsForPod pInfo aq = ([], Some ErrNotInFlight)) ∧
  (∀ oldPod newPod ev,
     activeQ.addEventIfPodInFlight oldPod newPod ev aq = (aq, false)) ∧
  (∀ oldObj newObj ev,
     activeQ.addEventIfAnyInFlight oldObj newObj ev aq = (aq, false)).
Proof.
  intros aq.
  assert (Hinv : ∀ ops aq0, isSchedulingQueueHintEnabled aq0 = false →
            inFlightPods aq0 = ∅ →
            inFlightPods (run ops aq0) = ∅ ∧
            inFlightEvents (run ops aq0) = inFlightEvents aq0).
  { clear. induction ops as [|o ops IH]; intros aq0 Hh Hm; simpl; [done|].
    destruct (exec_untracked o aq0 Hh Hm) as [Hm' Hl'].
    destruct (IH (exec o aq0).1) as [? ?]; [by rewrite exec_hints|done|].
    split; [done|congruence]. }
  destruct (Hinv ops (newActiveQueue q false)) as [Hm Hl]; [done..|].
  fold aq in Hm, Hl. simpl in Hl.
  split; [done|]. split; [done|]. split; [|split].
  - intros pInfo. unfold activeQ.clusterEventsForPod. by rewrite Hm, lookup_empty.
  - intros oldPod newPod ev. unfold activeQ.addEventIfPodInFlight.
    by rewrite Hm, lookup_empty.
  - intros oldObj newObj ev. unfold activeQ.addEventIfAnyInFlight.
    rewrite Hm, map_size_empty. done.
Qed.

(** ** The scheduling cycle *)

Lemma successfulPops_cons o ops aq :
  successfulPops (o :: ops) aq =
    match poppedPod (exec o aq).2 with
    | Some _ => S (successfulPops ops (exec o aq).1)
    | None => successfulPops ops (exec o aq).1
    end.
Proof.
  unfold successfulPops. simpl.
  by destruct (poppedPod (exec o aq).2).
Qed.

Lemma run_schedCycle ops aq :
  - 2 ^ 63 ≤ schedCycle aq < 2 ^ 63 →
  schedCycle (run ops aq) = wrap64 (schedCycle aq + Z.of_nat (successfulPops ops aq)).
Proof.
  revert aq. induction ops as [|o ops IH]; intros aq Hrange.
  - simpl. unfold successfulPops; simpl. rewrite Z.add_0_r. by rewrite wrap64_small.
  - simpl run. rewrite successfulPops_cons.
    pose proof (exec_schedCycle o aq) as Hstep.
    destruct (poppedPod (exec o aq).2) as [x|].
    + rewrite IH by (rewrite Hstep; apply wrap64_range).
      rewrite Hstep, wrap64_add_l. f_equal. lia.
    + rewrite IH by (by rewrite Hstep). by rewrite Hstep.
Qed.

(** C7 (as amended).  [schedCycle] is the number of successful pops since
    construction, counted in [int64]: it equals that number reduced to the
    [int64] range, hence the number itself as long as fewer than 2^63 pops
    have succeeded.  A call changes it only if it is a [pop] that returns a
    pod, which adds one (with wrap-around at the largest [int64]). *)
Theorem schedCycle_counts_successful_pops
    (q : heap.Heap) (hints : bool) (ops : list Op) :
  let aq0 := newActiveQueue q hints in
  let n := Z.of_nat (successfulPops ops aq0) in
  activeQ.schedulingCycle (run ops aq0) = wrap64 n ∧
  (n < 2 ^ 63 → activeQ.schedulingCycle (run ops aq0) = n) ∧
  (∀ o aq,
     activeQ.schedulingCycle (exec o aq).1 =
       match poppedPod (exec o aq).2 with
       | Some _ => wrap64 (activeQ.schedulingCycle aq + 1)
       | None => activeQ.schedulingCycle aq
       end) ∧
  (∀ o aq,
     is_Some (poppedPod (exec o aq).2) →
     - 2 ^ 63 ≤ activeQ.schedulingCycle aq < MaxInt64 →
     activeQ.schedulingCycle (exec o aq).1 = activeQ.schedulingCycle aq + 1).
Proof.
  intros aq0 n. unfold activeQ.schedulingCycle.
  assert (Hn : schedCycle (run ops aq0) = wrap64 n).
  { rewrite run_schedCycle by (simpl; lia). done. }
  split; [done|]. split; [|split].
  - intros Hlt. rewrite Hn. apply wrap64_small. lia.
  - apply exec_schedCycle.
  - intros o aq [x Hx] Hrange. rewrite exec_schedCycle, Hx.
    apply wrap64_small. unfold MaxInt64 in Hrange. lia.
Qed.

Lemma add_pop_round pInfo aq :
  heap.data (queue aq) = [] →
  heap.data (queue (exec OpPop (exec (add pInfo) aq).1).1) = [] ∧
  poppedPod (exec (add pInfo) aq).2 = None ∧
  is_Some (poppedPod (exec OpPop (exec (add pInfo) aq).1).2).
Proof.
  intros Hd.
  set (aq1 := (exec (add pInfo) aq).1).
  assert (Hd1 : heap.data (queue aq1) = [(heap.key pInfo, pInfo)]).
  { unfold aq1. simpl. unfold heap.AddOrUpdate, heap.Has, heap.Get.
    rewrite Hd. done. }
  assert (Hlen : heap.Len (queue aq1) ≠ 0).
  { unfold heap.Len. by rewrite Hd1. }
  destruct (pop_nonempty aq1 Hlen) as (k & x & d & aq' & Hd' & Hpop & Hq & _).
  simpl exec at 1 3. rewrite Hpop. simpl.
  rewrite Hq. simpl. rewrite Hd1 in Hd'. simplify_eq. eauto.
Qed.

Lemma addPopRounds_pops pInfo n aq :
  heap.data (queue aq) = [] →
  successfulPops (addPopRounds pInfo n) aq = n.
Proof.
  revert aq. induction n as [|n IH]; intros aq Hd; [done|].
  destruct (add_pop_round pInfo aq Hd) as (Hd' & Hadd & [x Hpop]).
  simpl addPopRounds. rewrite !successfulPops_cons, Hadd, Hpop.
  f_equal. by apply IH.
Qed.

(** After 2^63 rounds of enqueueing a pod and popping it, 2^63 pops have
    succeeded and the scheduling cycle is the smallest [int64]. *)
Lemma schedCycle_wraps_around :
  let aq0 := newActiveQueue (heap.New sampleLess) false in
  let ops := addPopRounds (sampleInfo "A" 0 0) (Z.to_nat (2 ^ 63)) in
  Z.of_nat (successfulPops ops aq0) = 2 ^ 63 ∧
  activeQ.schedulingCycle (run ops aq0) = - 2 ^ 63.
Proof.
  intros aq0 ops.
  assert (Hn : Z.of_nat (successfulPops ops aq0) = 2 ^ 63).
  { unfold ops. rewrite addPopRounds_pops by done. apply Z2Nat.id. lia. }
  split; [done|].
  unfold activeQ.schedulingCycle.
  rewrite run_schedCycle by (change (schedCycle aq0) with 0; lia).
  rewrite Hn. reflexivity.
Qed.

(** ** The heap under update *)

Section heap_facts.
Context (less : QueuedPodInfo → QueuedPodInfo → bool).
Implicit Types (d : list (string * QueuedPodInfo)) (k : string) (x : QueuedPodInfo).

Lemma sift_perm k x d : heap.sift less k x d ≡ₚ (k, x) :: d.
Proof.
  induction d as [|[k' y] d IH]; simpl; [done|].
  destruct (less x y); [done|].
  rewrite IH. apply Permutation_swap.
Qed.

Lemma sift_length k x d : length (heap.sift less k x d) = S (length d).
Proof. by rewrite sift_perm. Qed.

Lemma sift_sorted k x d :
  strictWeakOrder less →
  StronglySorted (notAfter less) d →
  StronglySorted (notAfter less) (heap.sift less k x d).
Proof.
  intros [Hasym Hneg]. induction d as [|[k' y] d IH]; intros Hs; simpl.
  - repeat constructor.
  - apply StronglySorted_inv in Hs as [Hs Hall].
    destruct (less x y) eqn:Hxy.
    + constructor; [by constructor|].
      constructor; [by apply Hasym|].
      eapply Forall_impl; [exact Hall|].
      intros [k'' z] Hz. unfold notAfter in *; simpl in *.
      eapply Hneg; [exact Hz|by apply Hasym].
    + constructor; [by apply IH|].
      rewrite sift_perm. by constructor.
Qed.

Lemma remove_key_Forall (P : string * QueuedPodInfo → Prop) k d :
  Forall P d → Forall P (heap.remove_key k d).
Proof.
  induction 1 as [|[k' y] d HP Hall IH]; simpl; [done|].
  destruct (decide (k' = k)); [done|by constructor].
Qed.

Lemma remove_key_sorted k d :
  StronglySorted (notAfter less) d →
  StronglySorted (notAfter less) (heap.remove_key k d).
Proof.
  induction 1 as [|[k' y] d Hs IH Hall]; simpl; [constructor|].
  destruct (decide (k' = k)); [done|].
  constructor; [done|by apply remove_key_Forall].
Qed.

Lemma remove_key_keys k d : (heap.remove_key k d).*1 = filter (λ k', k' ≠ k) d.*1.
Proof.
  induction d as [|[k' y] d IH]; simpl; [done|].
  rewrite filter_cons. simpl.
  destruct (decide (k' = k)) as [->|Hne].
  - by rewrite decide_False by (by intros ?).
  - rewrite decide_True by done. simpl. by f_equal.
Qed.

Lemma remove_key_absent k d : k ∉ (heap.remove_key k d).*1.
Proof. rewrite remove_key_keys. intros [? _]%list_elem_of_filter. done. Qed.

Lemma remove_key_NoDup k d : NoDup d.*1 → NoDup (heap.remove_key k d).*1.
Proof. rewrite remove_key_keys. apply NoDup_filter. Qed.

Lemma remove_key_elem k d e : e ∈ heap.remove_key k d → e ∈ d.
Proof.
  induction d as [|[k' y] d IH]; simpl; [done|].
  destruct (decide (k' = k)).
  - intros ?. right. by apply IH.
  - intros [->|?]%elem_of_cons; [left|right; by apply IH].
Qed.

Lemma remove_key_length k d :
  NoDup d.*1 → k ∈ d.*1 → S (length (heap.remove_key k d)) = length d.
Proof.
  induction d as [|[k' y] d IH]; simpl; [by intros _ ?%elem_of_nil|].
  intros [Hnotin Hnd]%NoDup_cons Hin.
  destruct (decide (k' = k)) as [->|Hne].
  - f_equal. clear IH Hin Hnd. induction d as [|[k'' z] d IH]; simpl; [done|].
    apply not_elem_of_cons in Hnotin as [Hne Hnotin].
    rewrite decide_False by done. simpl. f_equal. by apply IH.
  - simpl. f_equal. apply IH; [done|].
    apply elem_of_cons in Hin as [?|?]; [congruence|done].
Qed.

Lemma lookup_key_remove_key k k' d :
  heap.lookup_key k' (heap.remove_key k d) =
    if decide (k' = k) then None else heap.lookup_key k' d.
Proof.
  induction d as [|[k'' y] d IH]; simpl; [by destruct (decide (k' = k))|].
  destruct (decide (k'' = k)) as [->|Hne]; simpl.
  - rewrite IH. destruct (decide (k' = k)) as [->|?]; [done|].
    by rewrite decide_False by done.
  - rewrite IH. destruct (decide (k'' = k')) as [->|?]; [|done].
    by rewrite decide_False by done.
Qed.

Lemma lookup_key_None k d : heap.lookup_key k d = None ↔ k ∉ d.*1.
Proof.
  induction d as [|[k' y] d IH]; simpl.
  - split; [intros _ ?%elem_of_nil; done|done].
  - rewrite not_elem_of_cons. destruct (decide (k' = k)) as [->|Hne].
    + split; [done|]. by intros [? _].
    + rewrite IH. split; [intros ?; split; [done|done]|by intros [_ ?]].
Qed.

Lemma lookup_key_sift k k' x d :
  k ∉ d.*1 →
  heap.lookup_key k' (heap.sift less k x d) =
    if decide (k' = k) then Some x else heap.lookup_key k' d.
Proof.
  intros Hk. induction d as [|[k'' y] d IH]; simpl.
  - repeat case_decide; simplify_eq; done.
  - simpl in Hk. apply not_elem_of_cons in Hk as [Hne Hk].
    destruct (less x y); simpl; rewrite ?IH by done;
      repeat case_decide; simplify_eq; done.
Qed.

Lemma lookup_key_store k x d :
  heap.lookup_key k (heap.store k x d) = (λ _, x) <$> heap.lookup_key k d.
Proof.
  induction d as [|[k' y] d IH]; simpl; [done|].
  destruct (decide (k' = k)) as [->|Hne]; simpl.
  - by rewrite decide_True by done.
  - by rewrite decide_False by done.
Qed.

Lemma remove_key_store k x d :
  heap.remove_key k (heap.store k x d) = heap.remove_key k d.
Proof.
  induction d as [|[k' y] d IH]; simpl; [done|].
  destruct (decide (k' = k)) as [->|Hne]; simpl.
  - by rewrite decide_True by done.
  - rewrite decide_False by done. by f_equal.
Qed.

End heap_facts.

Lemma remove_key_id k (d : list (string * QueuedPodInfo)) :
  k ∉ d.*1 → heap.remove_key k d = d.
Proof.
  induction d as [|[k' y] d IH]; simpl; [done|].
  intros [Hne Hk]%not_elem_of_cons.
  rewrite decide_False by done. f_equal. by apply IH.
Qed.

Lemma heap_Has_true h pInfo : heap.Has h pInfo = true ↔ heap.key pInfo ∈ (heap.data h).*1.
Proof.
  unfold heap.Has, heap.Get. rewrite bool_decide_eq_true.
  rewrite <- not_eq_None_Some, lookup_key_None.
  split; [apply dec_stable|by intros ? ?].
Qed.

Lemma AddOrUpdate_data h pInfo :
  heap.AddOrUpdate h pInfo =
    heap.with_data h
      (heap.sift (heap.lessFunc h) (heap.key pInfo) pInfo
         (heap.remove_key (heap.key pInfo) (heap.data h))).
Proof.
  unfold heap.AddOrUpdate. destruct (heap.Has h pInfo) eqn:HHas; [done|].
  rewrite remove_key_id; [done|].
  intros Hin%heap_Has_true. congruence.
Qed.

Lemma sift_remove_wf h k x :
  heapWellFormed h → heap.key x = k →
  heapWellFormed
    (heap.with_data h (heap.sift (heap.lessFunc h) k x (heap.remove_key k (heap.data h)))).
Proof.
  intros [Hless Hkeys Hkeyed Hsorted] Hk. split; simpl.
  - done.
  - rewrite sift_perm. simpl. apply NoDup_cons. split.
    + apply remove_key_absent.
    + by apply remove_key_NoDup.
  - intros k' y. rewrite sift_perm. intros [?|Hin]%elem_of_cons; [by simplify_eq|].
    apply Hkeyed. by eapply remove_key_elem.
  - apply sift_sorted; [done|]. by apply remove_key_sorted.
Qed.

Lemma AddOrUpdate_wf h pInfo :
  heapWellFormed h → heapWellFormed (heap.AddOrUpdate h pInfo).
Proof. intros Hwf. rewrite AddOrUpdate_data. by apply sift_remove_wf. Qed.

Lemma New_wf less : strictWeakOrder less → heapWellFormed (heap.New less).
Proof.
  intros Hless. split; simpl; [done|constructor| |constructor].
  by intros k x ?%elem_of_nil.
Qed.

Lemma sampleLess_strictWeakOrder : strictWeakOrder sampleLess.
Proof.
  split; unfold sampleLess.
  - intros a b. repeat case_decide; rewrite ?bool_decide_eq_true, ?bool_decide_eq_false; lia.
  - intros a b c. repeat case_decide; rewrite ?bool_decide_eq_true, ?bool_decide_eq_false; lia.
Qed.

(** The heap of [update] when the entry exists and the new pod has the key of
    the old one: the entry is taken out and sifted back in with its new
    value. *)
Lemma update_existing newPod oldPodInfo pInfo aq :
  heap.Get (queue aq) oldPodInfo = Some pInfo →
  UID newPod = heap.key oldPodInfo →
  activeQ.update newPod oldPodInfo aq =
    (set_queue aq
       (heap.with_data (queue aq)
          (heap.sift (heap.lessFunc (queue aq)) (heap.key oldPodInfo)
             (QueuedPodInfo_Update pInfo newPod)
             (heap.remove_key (heap.key oldPodInfo) (heap.data (queue aq))))),
     Some (QueuedPodInfo_Update pInfo newPod)).
Proof.
  intros HGet Hkey. unfold activeQ.update. rewrite HGet.
  rewrite AddOrUpdate_data. simpl.
  replace (heap.key (QueuedPodInfo_Update pInfo newPod)) with (heap.key oldPodInfo)
    by (by unfold heap.key; simpl).
  by rewrite remove_key_store.
Qed.

Lemma store_keys k x (d : list (string * QueuedPodInfo)) :
  (heap.store k x d).*1 = d.*1.
Proof.
  induction d as [|[k' y] d IH]; simpl; [done|].
  destruct (decide (k' = k)); simpl; [done|]. by f_equal.
Qed.

(** C5 (as amended).  If the heap has no entry under the key of
    [oldPodInfo], [update] returns nil and the queue, heap included, is
    unchanged: nothing is inserted.  If it has one, [update] returns that
    entry with the new pod in it.  When the new pod carries the key of the
    old one (the key is stable across updates of a pod), the heap then holds
    this entry under the key and every other entry as before, has the same
    length, and is in comparator order again.  When the UID of the new pod
    is not a key of the heap, [update] does insert: the entry is added under
    the new UID while it stays in its place under the old key, and the heap
    is one entry longer. *)
Theorem update_never_inserts
    (aq : activeQueue) (newPod : Pod) (oldPodInfo : QueuedPodInfo) :
  (heap.Get (queue aq) oldPodInfo = None →
     activeQ.update newPod oldPodInfo aq = (aq, None)) ∧
  (∀ pInfo,
     heap.Get (queue aq) oldPodInfo = Some pInfo →
     (activeQ.update newPod oldPodInfo aq).2 = Some (QueuedPodInfo_Update pInfo newPod) ∧
     pod (QueuedPodInfo_Update pInfo newPod) = newPod) ∧
  (∀ pInfo,
     heap.Get (queue aq) oldPodInfo = Some pInfo →
     UID newPod = heap.key oldPodInfo →
     heapWellFormed (queue aq) →
     let pInfo' := QueuedPodInfo_Update pInfo newPod in
     let aq' := (activeQ.update newPod oldPodInfo aq).1 in
     heap.Get (queue aq') oldPodInfo = Some pInfo' ∧
     (∀ other, heap.key other ≠ heap.key oldPodInfo →
        heap.Get (queue aq') other = heap.Get (queue aq) other) ∧
     heap.Len (queue aq') = heap.Len (queue aq) ∧
     heapWellFormed (queue aq') ∧
     aq' = set_queue aq (queue aq')) ∧
  (∀ pInfo,
     heap.Get (queue aq) oldPodInfo = Some pInfo →
     UID newPod ∉ (heap.data (queue aq)).*1 →
     let pInfo' := QueuedPodInfo_Update pInfo newPod in
     let aq' := (activeQ.update newPod oldPodInfo aq).1 in
     heap.Len (queue aq') = heap.Len (queue aq) + 1 ∧
     heap.Get (queue aq') pInfo' = Some pInfo' ∧
     heap.Get (queue aq') oldPodInfo = Some pInfo' ∧
     heap.key pInfo' ≠ heap.key oldPodInfo).
Proof.
  split; [|split; [|split]].
  - intros HGet. unfold activeQ.update. by rewrite HGet.
  - intros pInfo HGet. unfold activeQ.update. by rewrite HGet.
  - intros pInfo HGet Hkey Hwf pInfo' aq'.
    unfold aq'. rewrite (update_existing _ _ _ _ HGet Hkey). simpl.
    fold pInfo'.
    assert (Hin : heap.key oldPodInfo ∈ (heap.data (queue aq)).*1).
    { apply dec_stable. intros Hnot%lookup_key_None.
      unfold heap.Get in HGet. congruence. }
    split; [|split; [|split; [|split]]].
    + unfold heap.Get; simpl.
      rewrite lookup_key_sift by apply remove_key_absent.
      by rewrite decide_True by done.
    + intros other Hother. unfold heap.Get; simpl.
      rewrite lookup_key_sift by apply remove_key_absent.
      rewrite decide_False by done.
      rewrite lookup_key_remove_key. by rewrite decide_False by done.
    + unfold heap.Len; simpl. rewrite sift_length.
      rewrite remove_key_length; [done|by destruct Hwf|done].
    + apply sift_remove_wf; [done|]. unfold pInfo', heap.key. simpl. done.
    + done.
  - intros pInfo HGet Hnew pInfo' aq'.
    assert (Hold : heap.key oldPodInfo ∈ (heap.data (queue aq)).*1).
    { apply dec_stable. intros Hnot%lookup_key_None.
      unfold heap.Get in HGet. congruence. }
    assert (Hne : heap.key pInfo' ≠ heap.key oldPodInfo).
    { intros Heq. apply Hnew. by rewrite <- Heq in Hold. }
    set (d := heap.store (heap.key oldPodInfo) pInfo' (heap.data (queue aq))).
    assert (Hnew' : heap.key pInfo' ∉ d.*1) by (unfold d; by rewrite store_keys).
    assert (Hq : queue aq' =
              heap.with_data (queue aq) (heap.sift (heap.lessFunc (queue aq))
                                           (heap.key pInfo') pInfo' d)).
    { unfold aq', activeQ.update. rewrite HGet. fold pInfo'. simpl.
      unfold heap.AddOrUpdate.
      destruct (heap.Has _ pInfo') eqn:HHas; [|done].
      apply heap_Has_true in HHas. done. }
    rewrite Hq. unfold heap.Len, heap.Get. simpl.
    rewrite sift_length, !lookup_key_sift by done.
    rewrite decide_True by done. rewrite decide_False by done.
    unfold d. rewrite lookup_key_store. unfold heap.Get in HGet. rewrite HGet.
    rewrite <- (length_fmap fst), store_keys, length_fmap.
    split; [lia|done].
Qed.

(** A heap with B (priority 5) ahead of A (priority 0); A is updated to
    priority 9 and moves to the front. *)
Lemma update_never_inserts_witness :
  let aq := run [add (sampleInfo "A" 0 0); add (sampleInfo "B" 5 1)]
              (newActiveQueue (heap.New sampleLess) true) in
  let newPod := samplePod "A" 9 in
  let oldPodInfo := sampleInfo "A" 0 0 in
  let pInfo' := QueuedPodInfo_Update oldPodInfo newPod in
  let aq' := (activeQ.update newPod oldPodInfo aq).1 in
  (heap.Get (queue aq) oldPodInfo = Some oldPodInfo ∧
   UID newPod = heap.key oldPodInfo ∧
   heapWellFormed (queue aq)) ∧
  (heap.Get (queue aq') oldPodInfo = Some pInfo' ∧
   (∀ other, heap.key other ≠ heap.key oldPodInfo →
      heap.Get (queue aq') other = heap.Get (queue aq) other) ∧
   heap.Len (queue aq') = heap.Len (queue aq) ∧
   heapWellFormed (queue aq') ∧
   aq' = set_queue aq (queue aq')).
Proof.
  intros aq newPod oldPodInfo.
  assert (H1 : heap.Get (queue aq) oldPodInfo = Some oldPodInfo) by reflexivity.
  assert (H2 : UID newPod = heap.key oldPodInfo) by reflexivity.
  assert (H3 : heapWellFormed (queue aq)).
  { change (queue aq) with
      (heap.AddOrUpdate
         (heap.AddOrUpdate (heap.New sampleLess) (sampleInfo "A" 0 0))
         (sampleInfo "B" 5 1)).
    apply AddOrUpdate_wf, AddOrUpdate_wf, New_wf, sampleLess_strictWeakOrder. }
  split; [done|].
  exact (proj1 (proj2 (proj2 (update_never_inserts aq newPod oldPodInfo)))
           oldPodInfo H1 H2 H3).
Defined.

(** A heap with B and A; A is updated with a pod whose UID is C: the heap
    then has three entries, and has one under C and one under A. *)
Lemma update_inserts_under_new_uid :
  let aq := run [add (sampleInfo "A" 0 0); add (sampleInfo "B" 5 1)]
              (newActiveQueue (heap.New sampleLess) true) in
  let newPod := samplePod "C" 9 in
  let oldPodInfo := sampleInfo "A" 0 0 in
  let aq' := (activeQ.update newPod oldPodInfo aq).1 in
  activeQ.has oldPodInfo aq = true ∧
  activeQ.has (sampleInfo "C" 9 0) aq = false ∧
  activeQ.len aq = 2 ∧
  (activeQ.update newPod oldPodInfo aq).2 = Some (QueuedPodInfo_Update oldPodInfo newPod) ∧
  activeQ.len aq' = 3 ∧
  activeQ.has (sampleInfo "C" 9 0) aq' = true ∧
  activeQ.has oldPodInfo aq' = true.
Proof. vm_compute. done. Qed.

Example update_resifts :
  let aq := run [add (sampleInfo "A" 0 0); add (sampleInfo "B" 5 1)]
              (newActiveQueue (heap.New sampleLess) true) in
  (heap.data (queue aq)).*1 = ["B"; "A"] ∧
  (heap.data (queue (activeQ.update (samplePod "A" 9) (sampleInfo "A" 0 0) aq).1)).*1
    = ["A"; "B"] ∧
  activeQ.update (samplePod "C" 9) (sampleInfo "C" 0 0) aq = (aq, None).
Proof. vm_compute. done. Qed.

(** ** The in-flight list *)

Section list_facts.
Implicit Types (es : list golist.Element) (a : nat) (x e : golist.Element).

Lemma remove_addr_elem a es x : x ∈ golist.remove_addr a es → x ∈ es.
Proof.
  induction es as [|y es IH]; simpl; [done|].
  destruct (decide (golist.addr y = a)).
  - by right.
  - intros [->|?]%elem_of_cons; [left|right; by apply IH].
Qed.

Lemma remove_addr_other a es x :
  x ∈ es → golist.addr x ≠ a → x ∈ golist.remove_addr a es.
Proof.
  induction es as [|y es IH]; simpl; [done|].
  intros [->|Hin]%elem_of_cons Hne.
  - rewrite decide_False by done. left.
  - destruct (decide (golist.addr y = a)); [done|]. right. by apply IH.
Qed.


Lemma remove_addr_sublist a es : golist.remove_addr a es `sublist_of` es.
Proof.
  induction es as [|y es IH]; simpl; [done|].
  destruct (decide (golist.addr y = a)).
  - by apply sublist_cons.
  - by apply sublist_skip.
Qed.

Lemma remove_addr_NoDup a es :
  NoDup (golist.addr <$> es) → NoDup (golist.addr <$> golist.remove_addr a es).
Proof.
  intros Hnd. eapply sublist_NoDup; [exact Hnd|].
  apply fmap_sublist, remove_addr_sublist.
Qed.

Lemma remove_addr_gone a es x :
  NoDup (golist.addr <$> es) → x ∈ golist.remove_addr a es → golist.addr x ≠ a.
Proof.
  induction es as [|y es IH]; simpl; [by intros _ ?%elem_of_nil|].
  intros [Hnotin Hnd]%NoDup_cons.
  destruct (decide (golist.addr y = a)) as [<-|Hne].
  - intros Hin Heq. apply Hnotin. rewrite <- Heq. by apply list_elem_of_fmap_2.
  - intros [->|?]%elem_of_cons; [done|by apply IH].
Qed.

Lemma addr_inj es x y :
  NoDup (golist.addr <$> es) → x ∈ es → y ∈ es →
  golist.addr x = golist.addr y → x = y.
Proof.
  induction es as [|z es IH]; simpl; [by intros _ ?%elem_of_nil|].
  intros [Hnotin Hnd]%NoDup_cons [->|Hx]%elem_of_cons [->|Hy]%elem_of_cons Heq.
  - done.
  - exfalso. apply Hnotin. rewrite Heq. by apply list_elem_of_fmap_2.
  - exfalso. apply Hnotin. rewrite <- Heq. by apply list_elem_of_fmap_2.
  - by apply IH.
Qed.

Lemma dropEvents_suffix es : dropEvents es `suffix_of` es.
Proof.
  induction es as [|y es IH]; simpl; [done|].
  destruct (golist.Value y); [done|]. by apply suffix_cons_r.
Qed.

Lemma dropEvents_sublist es : dropEvents es `sublist_of` es.
Proof.
  induction es as [|y es IH]; simpl; [done|].
  destruct (golist.Value y); [done|]. by apply sublist_cons.
Qed.

Lemma dropEvents_elem es x : x ∈ dropEvents es → x ∈ es.
Proof.
  intros Hin. destruct (dropEvents_suffix es) as [pre ->].
  apply elem_of_app. by right.
Qed.

Lemma dropEvents_marker es x :
  x ∈ es → isPodMarker (golist.Value x) = true → x ∈ dropEvents es.
Proof.
  induction es as [|y es IH]; simpl; [done|].
  intros [->|Hin]%elem_of_cons Hx.
  - destruct (golist.Value y); [left|done].
  - destruct (golist.Value y); [by right|by apply IH].
Qed.

Lemma dropEvents_front es :
  match head (dropEvents es) with
  | None => True
  | Some e => isPodMarker (golist.Value e) = true
  end.
Proof.
  induction es as [|y es IH]; simpl; [done|].
  destruct (golist.Value y) eqn:Hy; [|done]. simpl. by rewrite Hy.
Qed.


Lemma pruneFront_dropEvents n l :
  (length (golist.elems l) ≤ n)%nat →
  activeQ.pruneFront n l =
    {| golist.elems := dropEvents (golist.elems l); golist.fresh := golist.fresh l |}.
Proof.
  revert l. induction n as [|n IH]; intros [es f] Hlen; simpl in *.
  - destruct es; [done|simpl in Hlen; lia].
  - unfold golist.Front; simpl. destruct es as [|y es]; simpl; [done|].
    destruct (golist.Value y) eqn:Hy; [done|].
    unfold golist.Remove; simpl. rewrite decide_True by done.
    rewrite IH by (simpl in *; lia). done.
Qed.

Lemma following_app a es x :
  a ∈ golist.addr <$> es →
  golist.following a (es ++ [x]) = golist.following a es ++ [x].
Proof.
  induction es as [|y es IH]; simpl; [by intros ?%elem_of_nil|].
  intros Hin. destruct (decide (golist.addr y = a)); [done|].
  apply IH. apply elem_of_cons in Hin as [?|?]; [congruence|done].
Qed.

Lemma following_fresh a es x :
  a ∉ golist.addr <$> es → golist.addr x = a →
  golist.following a (es ++ [x]) = [].
Proof.
  induction es as [|y es IH]; simpl.
  - intros _ ->. by rewrite decide_True.
  - intros [Hne Hnotin]%not_elem_of_cons Hx.
    rewrite decide_False by done. by apply IH.
Qed.

Lemma following_suffix a es : golist.following a es `suffix_of` es.
Proof.
  induction es as [|y es IH]; simpl; [done|].
  destruct (decide (golist.addr y = a)); by apply suffix_cons_r.
Qed.

Lemma collectEvents_app es1 es2 :
  activeQ.collectEvents (es1 ++ es2) =
    activeQ.collectEvents es1 ++ activeQ.collectEvents es2.
Proof.
  induction es1 as [|y es1 IH]; simpl; [done|].
  destruct (golist.Value y); [done|]. simpl. by f_equal.
Qed.

(** Unlinking a pod does not change the events collected from a list. *)
Lemma collectEvents_remove_marker a es :
  (∀ x, x ∈ es → golist.addr x = a → isPodMarker (golist.Value x) = true) →
  activeQ.collectEvents (golist.remove_addr a es) = activeQ.collectEvents es.
Proof.
  induction es as [|y es IH]; simpl; [done|]. intros Hm.
  destruct (decide (golist.addr y = a)) as [Ha|Hne].
  - specialize (Hm y (list_elem_of_here _ _) Ha).
    by destruct (golist.Value y).
  - simpl. rewrite IH; [done|]. intros x Hx. apply Hm. by right.
Qed.

Lemma following_remove_marker a b es :
  a ≠ b →
  (∀ x, x ∈ es → golist.addr x = b → isPodMarker (golist.Value x) = true) →
  activeQ.collectEvents (golist.following a (golist.remove_addr b es)) =
    activeQ.collectEvents (golist.following a es).
Proof.
  intros Hab. induction es as [|y es IH]; simpl; [done|]. intros Hm.
  assert (Hm' : ∀ x, x ∈ es → golist.addr x = b → isPodMarker (golist.Value x) = true).
  { intros x Hx. apply Hm. by right. }
  destruct (decide (golist.addr y = b)) as [Hb|Hnb].
  - rewrite decide_False by congruence. done.
  - simpl. destruct (decide (golist.addr y = a)).
    + by apply collectEvents_remove_marker.
    + by apply IH.
Qed.

Lemma following_dropEvents a es :
  (∀ x, x ∈ es → golist.addr x = a → isPodMarker (golist.Value x) = true) →
  a ∈ golist.addr <$> es →
  golist.following a (dropEvents es) = golist.following a es.
Proof.
  induction es as [|y es IH]; simpl; [done|]. intros Hm Hin.
  destruct (golist.Value y) eqn:Hy; [done|].
  assert (Hne : golist.addr y ≠ a).
  { intros Ha. specialize (Hm y (list_elem_of_here _ _) Ha). by rewrite Hy in Hm. }
  rewrite decide_False by done. apply IH.
  - intros x Hx. apply Hm. by right.
  - apply elem_of_cons in Hin as [?|?]; [congruence|done].
Qed.

Lemma collectEvents_sublist es :
  (ClusterEventRecord <$> activeQ.collectEvents es) `sublist_of` (golist.Value <$> es).
Proof.
  induction es as [|y es IH]; simpl; [done|].
  destruct (golist.Value y) eqn:Hy; simpl.
  - by apply sublist_cons.
  - by apply sublist_skip.
Qed.

(** The loop of [done] has stopped by itself once it has run for as many
    rounds as the list is long: further rounds change nothing. *)
Lemma pruneFront_more_rounds n l :
  (length (golist.elems l) ≤ n)%nat →
  activeQ.pruneFront (S n) l = activeQ.pruneFront n l.
Proof.
  intros Hlen. rewrite !pruneFront_dropEvents by lia. done.
Qed.

(** Stepping with [Next] from an element walks through the elements that
    follow it, one by one. *)
Lemma Next_following l e x rest :
  NoDup (golist.addr <$> golist.elems l) →
  golist.following (golist.addr e) (golist.elems l) = x :: rest →
  golist.Next l e = Some x ∧
  golist.following (golist.addr x) (golist.elems l) = rest.
Proof.
  intros Hnd Hf. unfold golist.Next. rewrite Hf. split; [done|].
  destruct l as [es f]; simpl in *. clear f.
  induction es as [|y es IH]; simpl in *; [done|].
  apply NoDup_cons in Hnd as [Hnotin Hnd].
  destruct (decide (golist.addr y = golist.addr e)) as [Hy|Hy].
  - subst es. simpl in *. apply not_elem_of_cons in Hnotin as [Hne _].
    rewrite decide_False by done. by rewrite decide_True.
  - assert (Hx : x ∈ es).
    { destruct (following_suffix (golist.addr e) es) as [pre Hpre].
      rewrite Hf in Hpre. rewrite Hpre. apply elem_of_app. right. left. }
    rewrite decide_False; [by apply IH|].
    intros Heq. apply Hnotin. rewrite Heq. by apply list_elem_of_fmap_2.
Qed.

End list_facts.

(** ** How a call changes the in-flight bookkeeping *)

Lemma done_inFlight uid e aq :
  inFlightPods aq !! uid = Some e →
  inFlightPods (activeQ.done uid aq) = base.delete uid (inFlightPods aq) ∧
  inFlightEvents (activeQ.done uid aq) =
    {| golist.elems :=
         dropEvents (golist.remove_addr (golist.addr e) (golist.elems (inFlightEvents aq)));
       golist.fresh := golist.fresh (inFlightEvents aq) |}.
Proof.
  intros He. unfold activeQ.done. rewrite He. simpl. split; [done|].
  by rewrite pruneFront_dropEvents.
Qed.

(** A call leaves [inFlightPods] and the list alone, or it is a [pop] that
    pushes its pod and records it, or it pushes an event while some pod is
    in flight, or it is the [done] of an in-flight pod. *)
Lemma exec_inFlight o aq :
  (inFlightPods (exec o aq).1 = inFlightPods aq ∧
   inFlightEvents (exec o aq).1 = inFlightEvents aq ∧
   appendedEvent o (exec o aq).2 = None) ∨
  (∃ x, o = OpPop ∧
        (exec o aq).2 = RetPop (activeQ.popReturn (Some (popped x)) None) ∧
        inFlightEvents (exec o aq).1 = pushed (inFlightEvents aq) (PodMarker (pod x)) ∧
        inFlightPods (exec o aq).1 =
          <[UID (pod x) :=
              {| golist.addr := golist.fresh (inFlightEvents aq);
                 golist.Value := PodMarker (pod x) |}]> (inFlightPods aq)) ∨
  (∃ ev, appendedEvent o (exec o aq).2 = Some ev ∧
         poppedPod (exec o aq).2 = None ∧
         inFlightPods aq ≠ ∅ ∧
         inFlightPods (exec o aq).1 = inFlightPods aq ∧
         inFlightEvents (exec o aq).1 = pushed (inFlightEvents aq) (ClusterEventRecord ev)) ∨
  (∃ uid e, o = OpDone uid ∧
            inFlightPods aq !! uid = Some e ∧
            inFlightPods (exec o aq).1 = base.delete uid (inFlightPods aq) ∧
            inFlightEvents (exec o aq).1 =
              {| golist.elems :=
                   dropEvents (golist.remove_addr (golist.addr e)
                                 (golist.elems (inFlightEvents aq)));
                 golist.fresh := golist.fresh (inFlightEvents aq) |}).
Proof.
  destruct o; simpl.
  - left. done.
  - left. done.
  - left. unfold activeQ.update. destruct (heap.Get (queue aq) oldPodInfo); done.
  - left. unfold activeQ.delete, heap.Delete. destruct (heap.Has (queue aq) pInfo); done.
  - destruct (pop_cases aq) as [(_ & _ & H)|[(_ & _ & H)|(Hlen & x & H)]];
      [rewrite H; by left..|].
    destruct (pop_nonempty aq Hlen) as (k & x' & d & aq' & _ & Hpop & _ & _ & _ & _ & Hf).
    rewrite Hpop in H |- *. simplify_eq/=.
    destruct (isSchedulingQueueHintEnabled aq).
    + right; left. exists x'. destruct Hf as [-> ->]. done.
    + left. destruct Hf as [-> ->]. done.
  - by left.
  - by left.
  - by left.
  - by left.
  - left. by destruct (activeQ.listInFlightPods aq).
  - left. by destruct (activeQ.clusterEventsForPod pInfo aq).
  - unfold activeQ.addEventIfPodInFlight.
    destruct (inFlightPods aq !! UID newPod) as [e|] eqn:He; simpl.
    + right; right; left. eexists. split; [done|]. split; [done|].
      split; [|done]. intros Hm. by rewrite Hm, lookup_empty in He.
    + by left.
  - unfold activeQ.addEventIfAnyInFlight.
    destruct (decide (size (inFlightPods aq) ≠ 0%nat)) as [Hsz|Hsz]; simpl.
    + right; right; left. eexists. split; [done|]. split; [done|].
      split; [|done]. intros Hm. by rewrite Hm, map_size_empty in Hsz.
    + by left.
  - by left.
  - destruct (inFlightPods aq !! uid) as [e|] eqn:He.
    + right; right; right. exists uid, e.
      destruct (done_inFlight uid e aq He) as [-> ->]. done.
    + left. unfold activeQ.done. by rewrite He.
  - by left.
  - by left.
Qed.

Lemma newActiveQueue_consistent q hints : inFlightConsistent (newActiveQueue q hints).
Proof.
  split; simpl.
  - intros uid e. by rewrite lookup_empty.
  - constructor.
  - by intros e ?%elem_of_nil.
  - done.
Qed.

Lemma consistent_some_linked aq :
  inFlightConsistent aq → inFlightPods aq ≠ ∅ →
  golist.elems (inFlightEvents aq) ≠ [].
Proof.
  intros Hc Hne Hnil.
  apply map_choose in Hne as (uid & e & He).
  apply (recorded_linked _ Hc) in He as [Hin _].
  rewrite Hnil in Hin. by apply elem_of_nil in Hin.
Qed.

Lemma pushed_consistent aq aq' v m :
  inFlightConsistent aq →
  inFlightEvents aq' = pushed (inFlightEvents aq) v →
  inFlightPods aq' = m →
  (∀ uid e, m !! uid = Some e →
     inFlightPods aq !! uid = Some e ∨
     (e = {| golist.addr := golist.fresh (inFlightEvents aq); golist.Value := v |} ∧
      ∃ p, v = PodMarker p ∧ UID p = uid)) →
  (golist.elems (inFlightEvents aq) = [] → isPodMarker v = true) →
  inFlightConsistent aq'.
Proof.
  intros [Hlinked Hnd Halloc Hfront] Hl Hm Hrec Hv.
  split; rewrite ?Hl, ?Hm; simpl.
  - intros uid e [He|[-> Hp]]%Hrec.
    + destruct (Hlinked _ _ He) as [Hin Hp]. split; [|done].
      apply elem_of_app. by left.
    + split; [|done]. apply elem_of_app. right. apply list_elem_of_here.
  - rewrite fmap_app. simpl. apply NoDup_app. split; [done|]. split.
    + intros a Ha [->|[]%elem_of_nil]%elem_of_cons.
      apply list_elem_of_fmap in Ha as (e & Hae & Hin).
      apply Halloc in Hin. lia.
    + apply NoDup_singleton.
  - intros e [Hin|[->|[]%elem_of_nil]%elem_of_cons]%elem_of_app; simpl.
    + apply Halloc in Hin. lia.
    + lia.
  - unfold frontIsPodMarker, golist.Front in *; simpl.
    destruct (golist.elems (inFlightEvents aq)) as [|y es]; simpl in *.
    + by apply Hv.
    + done.
Qed.

Lemma exec_consistent o aq :
  inFlightConsistent aq → inFlightConsistent (exec o aq).1.
Proof.
  intros Hc.
  destruct (exec_inFlight o aq) as
    [(Hm & Hl & _)|[(x & _ & _ & Hl & Hm)|[(ev & _ & _ & Hne & Hm & Hl)|(uid & e & _ & He & Hm & Hl)]]].
  - destruct Hc as [Hlinked Hnd Halloc Hfront].
    split; rewrite ?Hm, ?Hl; done.
  - eapply pushed_consistent; [done|exact Hl|exact Hm| |done].
    intros uid e. destruct (decide (UID (pod x) = uid)) as [<-|Hne].
    + rewrite lookup_insert_eq. intros [= <-]. right. eauto.
    + rewrite lookup_insert_ne by done. by left.
  - eapply pushed_consistent; [done|exact Hl|exact Hm|by left|].
    intros Hnil. by apply consistent_some_linked in Hnil.
  - destruct Hc as [Hlinked Hnd Halloc Hfront].
    destruct (Hlinked _ _ He) as [Hine (p & Hp & Hpu)].
    split; rewrite ?Hm, ?Hl; simpl.
    + intros uid' e'. destruct (decide (uid = uid')) as [<-|Hne].
      { by rewrite lookup_delete_eq. }
      rewrite lookup_delete_ne by done. intros He'.
      destruct (Hlinked _ _ He') as [Hin' (p' & Hp' & Hpu')]. split; [|eauto].
      apply dropEvents_marker; [|by rewrite Hp'].
      apply remove_addr_other; [done|].
      intros Haddr. apply (addr_inj _ _ _ Hnd Hin' Hine) in Haddr. subst e'.
      congruence.
    + eapply sublist_NoDup; [exact Hnd|]. apply fmap_sublist.
      etrans; [apply dropEvents_sublist|apply remove_addr_sublist].
    + intros x Hx%dropEvents_elem%remove_addr_elem. by apply Halloc.
    + apply dropEvents_front.
Qed.

Lemma reachable_consistent aq : reachable aq → inFlightConsistent aq.
Proof.
  induction 1; [apply newActiveQueue_consistent|by apply exec_consistent].
Qed.

(** In a reachable state the type assertion of [listInFlightPods] does not
    panic. *)
Lemma listInFlightPods_reachable aq :
  reachable aq → is_Some (activeQ.listInFlightPods aq).
Proof.
  intros Hc%reachable_consistent. unfold activeQ.listInFlightPods.
  apply mapM_is_Some, Forall_forall. intros e He.
  apply list_elem_of_fmap in He as ([uid e'] & -> & Hin). simpl.
  apply elem_of_map_to_list in Hin.
  destruct (recorded_linked _ Hc _ _ Hin) as [_ (p & Hp & _)].
  unfold activeQ.assertPod. by rewrite Hp.
Qed.

(** As long as [pop] does not return a pod that is still in flight, every pod
    in the list is the element recorded for it. *)
Lemma exec_markersRecorded o aq :
  inFlightConsistent aq → markersRecorded aq →
  (∀ x, poppedPod (exec o aq).2 = Some x → inFlightPods aq !! UID (pod x) = None) →
  markersRecorded (exec o aq).1.
Proof.
  intros Hc Hrec Hfresh. unfold markersRecorded in *.
  destruct (exec_inFlight o aq) as
    [(Hm & Hl & _)|[(x & _ & Hr & Hl & Hm)|[(ev & _ & _ & Hne & Hm & Hl)|(uid & e & _ & He & Hm & Hl)]]];
    rewrite Hm, Hl; simpl.
  - done.
  - rewrite Hr in Hfresh. specialize (Hfresh _ eq_refl). simpl in Hfresh.
    intros y p [Hin|[->|[]%elem_of_nil]%elem_of_cons]%elem_of_app Hy.
    + specialize (Hrec _ _ Hin Hy).
      rewrite lookup_insert_ne; [done|]. intros Heq. rewrite Heq in Hfresh. congruence.
    + simpl in Hy. simplify_eq. by rewrite lookup_insert_eq.
  - intros y p [Hin|[->|[]%elem_of_nil]%elem_of_cons]%elem_of_app Hy; [eauto|done].
  - intros y p Hin Hy.
    pose proof (remove_addr_gone _ _ _ (addrs_distinct _ Hc) (dropEvents_elem _ _ Hin)) as Hgone.
    apply dropEvents_elem, remove_addr_elem in Hin.
    specialize (Hrec _ _ Hin Hy).
    rewrite lookup_delete_ne; [done|]. intros ->. congruence.
Qed.

Lemma run_markersRecorded ops aq :
  inFlightConsistent aq → markersRecorded aq → popsOnlyQueued ops aq →
  markersRecorded (run ops aq).
Proof.
  revert aq. induction ops as [|o ops IH]; intros aq Hc Hrec Hpops; simpl; [done|].
  destruct Hpops as [Hfresh Hpops].
  apply IH; [by apply exec_consistent|by apply exec_markersRecorded|done].
Qed.

Lemma newActiveQueue_markersRecorded q hints : markersRecorded (newActiveQueue q hints).
Proof. by intros e p ?%elem_of_nil. Qed.

(** ** done: what is left of the list *)

(** C3 (as amended).  After [done(uid)] in a reachable state, [uid] is not a
    key of [inFlightPods], the element that was recorded for it is not in the
    list any more (so that no pod with this UID is left in the list when
    every pod in it was the recorded one), the list is what remains of it
    after unlinking that element and dropping the leading cluster events, and
    its front, if it has one, is a pod.  Nothing is said about cluster events
    whose objects have this UID: those behind another in-flight pod stay. *)
Theorem done_unlinks_and_prunes (aq : activeQueue) (uid : string) :
  reachable aq →
  let aq' := activeQ.done uid aq in
  inFlightPods aq' !! uid = None ∧
  (∀ e, inFlightPods aq !! uid = Some e →
     golist.elems (inFlightEvents aq') =
       dropEvents (golist.remove_addr (golist.addr e) (golist.elems (inFlightEvents aq))) ∧
     ∀ x, x ∈ golist.elems (inFlightEvents aq') → golist.addr x ≠ golist.addr e) ∧
  (markersRecorded aq →
     ∀ x p, x ∈ golist.elems (inFlightEvents aq') →
       golist.Value x = PodMarker p → UID p ≠ uid) ∧
  frontIsPodMarker (inFlightEvents aq').
Proof.
  intros Hc%reachable_consistent aq'.
  split; [apply done_key_gone|].
  destruct (inFlightPods aq !! uid) as [e|] eqn:He.
  - destruct (done_inFlight uid e aq He) as [Hm Hl].
    assert (Hgone : ∀ x, x ∈ golist.elems (inFlightEvents aq') →
              golist.addr x ≠ golist.addr e).
    { intros x. unfold aq'. rewrite Hl. simpl. intros Hx%dropEvents_elem.
      eapply remove_addr_gone; [|done]. by destruct Hc. }
    split; [|split].
    + intros ? [= <-]. split; [|done]. unfold aq'. by rewrite Hl.
    + intros Hrec x p Hx Hp Hu. apply (Hgone x Hx). f_equal.
      assert (Hin : x ∈ golist.elems (inFlightEvents aq)).
      { unfold aq' in Hx. rewrite Hl in Hx. simpl in Hx.
        by apply dropEvents_elem, remove_addr_elem in Hx. }
      specialize (Hrec _ _ Hin Hp). rewrite Hu in Hrec. congruence.
    + unfold aq'. rewrite Hl. unfold frontIsPodMarker, golist.Front. simpl.
      apply dropEvents_front.
  - assert (Heq : aq' = aq) by (by apply done_not_in_flight).
    rewrite Heq. split; [done|]. split; [|by destruct Hc].
    intros Hrec x p Hx Hp Hu. specialize (Hrec _ _ Hx Hp). congruence.
Qed.

(** A is popped, then B; an update of B is recorded; B is done.  The list
    still begins with A, and the event for B stays behind it. *)
Lemma done_keeps_events_behind_other_pod :
  let aq := run [add (sampleInfo "A" 5 0); add (sampleInfo "B" 0 1); OpPop; OpPop;
                 OpAddEventIfPodInFlight (samplePod "B" 0) (samplePod "B" 1) PodUpdate]
              (newActiveQueue (heap.New sampleLess) true) in
  let ev := ClusterEventRecord
              {| event := PodUpdate;
                 oldObj := podObj (samplePod "B" 0);
                 newObj := podObj (samplePod "B" 1) |} in
  reachable aq ∧
  activeQ.listInFlightEvents (activeQ.done "B" aq) = [PodMarker (samplePod "A" 5); ev] ∧
  references "B" ev.
Proof.
  intros aq ev. split; [apply reachable_run, reachable_new|].
  split; [vm_compute; reflexivity|]. right. reflexivity.
Qed.

Lemma done_unlinks_and_prunes_witness :
  let aq := run [add (sampleInfo "A" 5 0); add (sampleInfo "B" 0 1); OpPop; OpPop;
                 OpAddEventIfPodInFlight (samplePod "B" 0) (samplePod "B" 1) PodUpdate]
              (newActiveQueue (heap.New sampleLess) true) in
  let uid := "A" in
  let aq' := activeQ.done uid aq in
  reachable aq ∧
  (inFlightPods aq' !! uid = None ∧
   (∀ e, inFlightPods aq !! uid = Some e →
      golist.elems (inFlightEvents aq') =
        dropEvents (golist.remove_addr (golist.addr e) (golist.elems (inFlightEvents aq))) ∧
      ∀ x, x ∈ golist.elems (inFlightEvents aq') → golist.addr x ≠ golist.addr e) ∧
   (markersRecorded aq →
      ∀ x p, x ∈ golist.elems (inFlightEvents aq') →
        golist.Value x = PodMarker p → UID p ≠ uid) ∧
   frontIsPodMarker (inFlightEvents aq')).
Proof.
  intros aq uid.
  assert (H1 : reachable aq) by apply reachable_run, reachable_new.
  split; [done|]. exact (done_unlinks_and_prunes aq uid H1).
Defined.

(** In that state every pod in the list is the recorded one. *)
Example markersRecorded_sample :
  markersRecorded
    (run [add (sampleInfo "A" 5 0); add (sampleInfo "B" 0 1); OpPop; OpPop;
          OpAddEventIfPodInFlight (samplePod "B" 0) (samplePod "B" 1) PodUpdate]
       (newActiveQueue (heap.New sampleLess) true)).
Proof.
  apply run_markersRecorded.
  - apply newActiveQueue_consistent.
  - apply newActiveQueue_markersRecorded.
  - repeat split; intros x Hx; vm_compute in Hx;
      first [discriminate | by injection Hx as <-].
Qed.

Example done_prunes_head :
  let aq := run [add (sampleInfo "A" 5 0); add (sampleInfo "B" 0 1); OpPop; OpPop;
                 OpAddEventIfPodInFlight (samplePod "B" 0) (samplePod "B" 1) PodUpdate]
              (newActiveQueue (heap.New sampleLess) true) in
  activeQ.listInFlightEvents (activeQ.done "A" aq)
    = [PodMarker (samplePod "B" 0);
       ClusterEventRecord {| event := PodUpdate;
                            oldObj := podObj (samplePod "B" 0);
                            newObj := podObj (samplePod "B" 1) |}] ∧
  activeQ.listInFlightEvents (activeQ.done "B" (activeQ.done "A" aq)) = [] ∧
  (activeQ.clusterEventsForPod (sampleInfo "A" 5 0) (activeQ.done "A" aq)).2
    = Some ErrNotInFlight.
Proof. vm_compute. done. Qed.

(** ** The events of an attempt *)

Lemma following_sublist a es : golist.following a es `sublist_of` es.
Proof.
  induction es as [|y es IH]; simpl; [done|].
  destruct (decide (golist.addr y = a)); by apply sublist_cons.
Qed.

Lemma appendedEvents_cons o ops aq :
  appendedEvents (o :: ops) aq =
    option_list (appendedEvent o (exec o aq).2) ++ appendedEvents ops (exec o aq).1.
Proof. simpl. by destruct (appendedEvent o (exec o aq).2). Qed.

Lemma poppedUIDs_cons o ops aq :
  poppedUIDs (o :: ops) aq =
    match poppedPod (exec o aq).2 with
    | Some x => UID (pod x) :: poppedUIDs ops (exec o aq).1
    | None => poppedUIDs ops (exec o aq).1
    end.
Proof.
  unfold poppedUIDs. simpl. by destruct (poppedPod (exec o aq).2).
Qed.

(** One call, other than the [done] or a new [pop] of the pod, while the pod
    is in flight: the pod stays recorded, and the events collected behind its
    element grow by the event the call appended, if it did. *)
Lemma window_step o aq uid e :
  inFlightConsistent aq →
  inFlightPods aq !! uid = Some e →
  o ≠ OpDone uid →
  (∀ x, poppedPod (exec o aq).2 = Some x → UID (pod x) ≠ uid) →
  inFlightPods (exec o aq).1 !! uid = Some e ∧
  activeQ.collectEvents
    (golist.following (golist.addr e) (golist.elems (inFlightEvents (exec o aq).1))) =
  activeQ.collectEvents
    (golist.following (golist.addr e) (golist.elems (inFlightEvents aq)))
    ++ option_list (appendedEvent o (exec o aq).2).
Proof.
  intros Hc He Ho Hpop.
  destruct (recorded_linked _ Hc _ _ He) as [Hin (p & Hp & Hpu)].
  assert (Haddr : golist.addr e ∈ golist.addr <$> golist.elems (inFlightEvents aq))
    by (by apply list_elem_of_fmap_2).
  assert (Hmark : ∀ x, x ∈ golist.elems (inFlightEvents aq) →
            golist.addr x = golist.addr e → isPodMarker (golist.Value x) = true).
  { intros x Hx Hxe. apply (addr_inj _ _ _ (addrs_distinct _ Hc) Hx Hin) in Hxe.
    subst x. by rewrite Hp. }
  destruct (exec_inFlight o aq) as
    [(Hm & Hl & Hap)|[(x & Hop & Hr & Hl & Hm)|[(ev & Hap & _ & Hne & Hm & Hl)|(uid' & e' & -> & He' & Hm & Hl)]]].
  - rewrite Hm, Hl, Hap. simpl. by rewrite app_nil_r.
  - rewrite Hm, Hl, Hr. simpl. rewrite Hr in Hpop.
    specialize (Hpop _ eq_refl). simpl in Hpop.
    rewrite lookup_insert_ne by done. split; [done|].
    rewrite following_app by done. rewrite collectEvents_app, Hop. done.
  - rewrite Hm, Hl, Hap. simpl. split; [done|].
    rewrite following_app by done. rewrite collectEvents_app. done.
  - assert (Hne : uid' ≠ uid) by congruence.
    rewrite Hm, Hl. simpl. rewrite lookup_delete_ne by done. split; [done|].
    rewrite app_nil_r.
    destruct (recorded_linked _ Hc _ _ He') as [Hin' (p' & Hp' & Hpu')].
    assert (Hee : golist.addr e ≠ golist.addr e').
    { intros Heq. apply (addr_inj _ _ _ (addrs_distinct _ Hc) Hin Hin') in Heq.
      subst e'. congruence. }
    rewrite following_dropEvents.
    + apply following_remove_marker; [done|].
      intros x Hx Hxe. apply (addr_inj _ _ _ (addrs_distinct _ Hc) Hx Hin') in Hxe.
      subst x. by rewrite Hp'.
    + intros x Hx%remove_addr_elem. by apply Hmark.
    + apply list_elem_of_fmap_2. by apply remove_addr_other.
Qed.

Lemma window_run ops aq uid e :
  inFlightConsistent aq →
  inFlightPods aq !! uid = Some e →
  OpDone uid ∉ ops →
  uid ∉ poppedUIDs ops aq →
  inFlightPods (run ops aq) !! uid = Some e ∧
  activeQ.collectEvents
    (golist.following (golist.addr e) (golist.elems (inFlightEvents (run ops aq)))) =
  activeQ.collectEvents
    (golist.following (golist.addr e) (golist.elems (inFlightEvents aq)))
    ++ appendedEvents ops aq.
Proof.
  revert aq. induction ops as [|o ops IH]; intros aq Hc He Hdone Hpop.
  - simpl. by rewrite app_nil_r.
  - apply not_elem_of_cons in Hdone as [Ho Hdone].
    rewrite poppedUIDs_cons in Hpop.
    destruct (window_step o aq uid e Hc He) as [He' Hev]; [done| |].
    { intros x Hx. rewrite Hx in Hpop. by apply not_elem_of_cons in Hpop as [? _]. }
    destruct (IH (exec o aq).1) as [He'' Hev'']; [by apply exec_consistent|done|done| |].
    { destruct (poppedPod (exec o aq).2); [|done].
      by apply not_elem_of_cons in Hpop as [_ ?]. }
    simpl run. split; [done|].
    rewrite Hev'', Hev, appendedEvents_cons. by rewrite app_assoc.
Qed.

(** C2 (as amended).  A pod is popped with hints enabled.  After any calls
    that include neither its [done] nor another [pop] that returns a pod with
    its UID, [clusterEventsForPod] returns, with a nil error, exactly the
    events that the event-recording calls appended since the pop, in the
    order in which they were appended; they occur in this order in the
    in-flight list, where the pods of other attempts lie between them.
    Right after a [pop] the result is empty, also when the pod was in flight
    already: a second [pop] of the pod starts a new attempt, and the events
    recorded before it are not returned any more. *)
Theorem clusterEventsForPod_returns_appended
    (aq aq1 : activeQueue) (pInfo : QueuedPodInfo) (ops : list Op) :
  reachable aq →
  isSchedulingQueueHintEnabled aq = true →
  activeQ.pop aq = (aq1, activeQ.popReturn (Some pInfo) None) →
  OpDone (UID (pod pInfo)) ∉ ops →
  UID (pod pInfo) ∉ poppedUIDs ops aq1 →
  activeQ.clusterEventsForPod pInfo aq1 = ([], None) ∧
  activeQ.clusterEventsForPod pInfo (run ops aq1) = (appendedEvents ops aq1, None) ∧
  (ClusterEventRecord <$> appendedEvents ops aq1)
    `sublist_of` activeQ.listInFlightEvents (run ops aq1).
Proof.
  intros Hreach Hhints Hpop Hdone Hnopop.
  pose proof (reachable_consistent _ Hreach) as Hc.
  assert (Hc1 : inFlightConsistent aq1).
  { pose proof (exec_consistent OpPop aq Hc) as H. simpl in H. by rewrite Hpop in H. }
  assert (Hlen : heap.Len (queue aq) ≠ 0).
  { destruct (pop_cases aq) as [(_ & _ & H)|[(_ & _ & H)|(H & _)]];
      [rewrite H in Hpop; by simplify_eq..|done]. }
  destruct (pop_nonempty aq Hlen) as (k & x & d & aq' & _ & Hpop' & _ & _ & _ & _ & Hf).
  rewrite Hpop in Hpop'. simplify_eq. rewrite Hhints in Hf. destruct Hf as [Hl Hm].
  set (e := {| golist.addr := golist.fresh (inFlightEvents aq);
               golist.Value := PodMarker (pod x) |}).
  assert (He : inFlightPods aq' !! UID (pod x) = Some e).
  { rewrite Hm. simpl. by rewrite lookup_insert_eq. }
  assert (Hnil : activeQ.collectEvents
            (golist.following (golist.addr e) (golist.elems (inFlightEvents aq'))) = []).
  { rewrite Hl. simpl. rewrite following_fresh; [done| |done].
    intros (y & Hy & Hin)%list_elem_of_fmap.
    apply (addrs_allocated _ Hc) in Hin. lia. }
  simpl in Hdone, Hnopop.
  destruct (window_run ops aq' _ e Hc1 He Hdone Hnopop) as [He' Hev].
  rewrite Hnil, app_nil_l in Hev.
  unfold activeQ.clusterEventsForPod.
  change (UID (pod (popped x))) with (UID (pod x)).
  rewrite He, He', Hnil, Hev.
  split; [done|]. split; [done|].
  rewrite <- Hev. unfold activeQ.listInFlightEvents.
  etrans; [apply collectEvents_sublist|]. apply fmap_sublist, following_sublist.
Qed.

(** A (priority 5) is popped; then B is popped, a node is added, B is updated
    and done, an update of a pod that is not in flight is dropped, and the
    node is deleted: the attempt of A sees the three recorded events. *)
Lemma clusterEventsForPod_returns_appended_witness :
  let aq := run [add (sampleInfo "A" 5 0); add (sampleInfo "B" 0 1)]
              (newActiveQueue (heap.New sampleLess) true) in
  let aq1 := (activeQ.pop aq).1 in
  let pInfo := popped (sampleInfo "A" 5 0) in
  let ops := [OpPop;
              OpAddEventIfAnyInFlight nilObj (nodeObj "n1") NodeAdd;
              OpAddEventIfPodInFlight (samplePod "B" 0) (samplePod "B" 1) PodUpdate;
              OpDone "B";
              OpAddEventIfPodInFlight (samplePod "C" 0) (samplePod "C" 1) PodUpdate;
              OpAddEventIfAnyInFlight (nodeObj "n1") nilObj NodeDelete] in
  (reachable aq ∧
   isSchedulingQueueHintEnabled aq = true ∧
   activeQ.pop aq = (aq1, activeQ.popReturn (Some pInfo) None) ∧
   (OpDone (UID (pod pInfo)) ∉ ops) ∧
   (UID (pod pInfo) ∉ poppedUIDs ops aq1)) ∧
  (activeQ.clusterEventsForPod pInfo aq1 = ([], None) ∧
   activeQ.clusterEventsForPod pInfo (run ops aq1) = (appendedEvents ops aq1, None) ∧
   (ClusterEventRecord <$> appendedEvents ops aq1)
     `sublist_of` activeQ.listInFlightEvents (run ops aq1)).
Proof.
  intros aq aq1 pInfo ops.
  assert (H1 : reachable aq) by apply reachable_run, reachable_new.
  assert (H2 : isSchedulingQueueHintEnabled aq = true) by reflexivity.
  assert (H3 : activeQ.pop aq = (aq1, activeQ.popReturn (Some pInfo) None))
    by (vm_compute; reflexivity).
  assert (H4 : OpDone (UID (pod pInfo)) ∉ ops)
    by (apply (bool_decide_unpack _); vm_compute; exact I).
  assert (H5 : UID (pod pInfo) ∉ poppedUIDs ops aq1)
    by (apply (bool_decide_unpack _); vm_compute; exact I).
  split; [done|].
  exact (clusterEventsForPod_returns_appended aq aq1 pInfo ops H1 H2 H3 H4 H5).
Defined.

(** A is popped and a node event is recorded while it is in flight; A is
    enqueued and popped again without having been done: the event, appended
    after the pod of A and before any [done], is not returned. *)
Lemma clusterEventsForPod_loses_events_on_repop :
  let aq := run [add (sampleInfo "A" 0 0)] (newActiveQueue (heap.New sampleLess) true) in
  let aq1 := (activeQ.pop aq).1 in
  let pInfo := popped (sampleInfo "A" 0 0) in
  let ops := [OpAddEventIfAnyInFlight nilObj (nodeObj "n1") NodeAdd;
              add (sampleInfo "A" 0 0); OpPop] in
  let ev := {| event := NodeAdd; oldObj := nilObj; newObj := nodeObj "n1" |} in
  reachable aq ∧
  isSchedulingQueueHintEnabled aq = true ∧
  activeQ.pop aq = (aq1, activeQ.popReturn (Some pInfo) None) ∧
  (OpDone (UID (pod pInfo)) ∉ ops) ∧
  poppedUIDs ops aq1 = [UID (pod pInfo)] ∧
  appendedEvents ops aq1 = [ev] ∧
  activeQ.listInFlightEvents (run ops aq1) =
    [PodMarker (pod pInfo); ClusterEventRecord ev; PodMarker (pod pInfo)] ∧
  activeQ.clusterEventsForPod pInfo (run ops aq1) = ([], None).
Proof.
  intros aq aq1 pInfo ops ev.
  split; [apply reachable_run, reachable_new|].
  split; [reflexivity|]. split; [vm_compute; reflexivity|].
  split; [apply (bool_decide_unpack _); vm_compute; exact I|].
  vm_compute. done.
Qed.

Example clusterEventsForPod_scenario :
  let aq := run [add (sampleInfo "A" 5 0); add (sampleInfo "B" 0 1); OpPop; OpPop;
                 OpAddEventIfAnyInFlight nilObj (nodeObj "n1") NodeAdd;
                 OpAddEventIfPodInFlight (samplePod "B" 0) (samplePod "B" 1) PodUpdate]
              (newActiveQueue (heap.New sampleLess) true) in
  let e1 := {| event := NodeAdd; oldObj := nilObj; newObj := nodeObj "n1" |} in
  let e2 := {| event := PodUpdate; oldObj := podObj (samplePod "B" 0);
               newObj := podObj (samplePod "B" 1) |} in
  activeQ.clusterEventsForPod (sampleInfo "A" 5 0) aq = ([e1; e2], None) ∧
  activeQ.clusterEventsForPod (sampleInfo "B" 0 1) aq = ([e1; e2], None) ∧
  activeQ.clusterEventsForPod (sampleInfo "B" 0 1) (activeQ.done "A" aq) = ([e1; e2], None) ∧
  activeQ.schedulingCycle aq = 2.
Proof. vm_compute. done. Qed.

(** ** Blocking in pop *)

Lemma wake_not_parked g : wake g ≠ Parked.
Proof. by destruct g. Qed.

Lemma sys_step_call_idle g o s :
  callers s !! g ≠ Some Parked → callers s !! g ≠ Some Woken →
  sys_step (ActCall g o) s =
    match o with
    | OpPop =>
        {| sys_queue := (activeQ.pop (sys_queue s)).1;
           callers := <[g := afterLoop (activeQ.pop (sys_queue s)).2]> (callers s) |}
    | OpBroadcast => {| sys_queue := sys_queue s; callers := wake <$> callers s |}
    | _ => {| sys_queue := (exec o (sys_queue s)).1; callers := callers s |}
    end.
Proof.
  intros Hp Hw. unfold sys_step.
  destruct (callers s !! g) as [[| |]|]; try done;
    destruct o; try done; by destruct (activeQ.pop (sys_queue s)).
Qed.

Lemma sys_step_resume g s :
  callers s !! g = Some Woken →
  sys_step (ActResume g) s =
    {| sys_queue := (activeQ.pop (sys_queue s)).1;
       callers := <[g := afterLoop (activeQ.pop (sys_queue s)).2]> (callers s) |}.
Proof.
  intros Hw. unfold sys_step. rewrite Hw. by destruct (activeQ.pop (sys_queue s)).
Qed.

(** A goroutine that is parked after a step was parked before, or the step
    is its own call of [pop], or its own resumption inside [pop]. *)
Lemma parked_only_in_pop a s g :
  callers (sys_step a s) !! g = Some Parked →
  callers s !! g = Some Parked ∨ a = ActCall g OpPop ∨ a = ActResume g.
Proof.
  destruct a as [g' o|g'|g'].
  - destruct (decide (callers s !! g' = Some Parked)) as [Hp|Hp].
    { unfold sys_step. rewrite Hp. by left. }
    destruct (decide (callers s !! g' = Some Woken)) as [Hw|Hw].
    { unfold sys_step. rewrite Hw. by left. }
    rewrite sys_step_call_idle by done.
    destruct o; simpl; try by left.
    + destruct (decide (g' = g)) as [->|Hne]; [by right; left|].
      rewrite lookup_insert_ne by done. by left.
    + rewrite lookup_fmap. destruct (callers s !! g) as [c|]; simpl; [|done].
      intros [= H]. by apply wake_not_parked in H.
  - unfold sys_step. destruct (callers s !! g') as [[| |]|] eqn:Hg'; try by left.
    simpl. destruct (decide (g' = g)) as [->|Hne].
    + by rewrite lookup_insert_eq.
    + rewrite lookup_insert_ne by done. by left.
  - destruct (decide (callers s !! g' = Some Woken)) as [Hw|Hw].
    + rewrite sys_step_resume by done. simpl.
      destruct (decide (g' = g)) as [->|Hne]; [by right; right|].
      rewrite lookup_insert_ne by done. by left.
    + unfold sys_step. destruct (callers s !! g') as [[| |]|]; try done; by left.
Qed.

(** A parked goroutine stays parked under every step that is neither a
    [broadcast] nor a wake-up of it. *)
Lemma parked_until_woken a s g :
  callers s !! g = Some Parked →
  (∀ g', a ≠ ActCall g' OpBroadcast) → a ≠ ActWake g →
  callers (sys_step a s) !! g = Some Parked.
Proof.
  intros Hg Hb Hwake. destruct a as [g' o|g'|g'].
  - destruct (decide (callers s !! g' = Some Parked)) as [Hp|Hp].
    { unfold sys_step. by rewrite Hp. }
    destruct (decide (callers s !! g' = Some Woken)) as [Hw|Hw].
    { unfold sys_step. by rewrite Hw. }
    rewrite sys_step_call_idle by done.
    destruct o; simpl; try done.
    + rewrite lookup_insert_ne; [done|]. intros ->. congruence.
    + by specialize (Hb g').
  - unfold sys_step. destruct (callers s !! g') as [[| |]|] eqn:Hg'; try done.
    simpl. rewrite lookup_insert_ne; [done|]. congruence.
  - destruct (decide (callers s !! g' = Some Woken)) as [Hw|Hw].
    + rewrite sys_step_resume by done. simpl.
      rewrite lookup_insert_ne; [done|]. intros ->. congruence.
    + unfold sys_step. destruct (callers s !! g') as [[| |]|]; done.
Qed.

(** C9.  A [pop] on an empty queue that is not closed parks the caller in
    [cond.Wait()] and changes nothing.  The caller stays parked under every
    step of the system except a [broadcast] and a wake-up of its own; a
    [broadcast] wakes it.  Once woken it re-evaluates the loop: with the heap
    still empty and the queue open it parks again (so a wake-up without
    cause is harmless), with the heap empty and the queue closed it returns
    (nil, nil), with a pod in the heap it returns the pod at the head.  In
    particular it returns the new pod after an enqueue and a [broadcast], and
    (nil, nil) after [close] and a [broadcast].  No goroutine is ever parked
    except inside [pop]: the caller of any other method is not parked by its
    call. *)
Theorem pop_blocks_until_broadcast :
  (∀ s g,
     callers s !! g = None →
     heap.Len (queue (sys_queue s)) = 0 → closed (sys_queue s) = false →
     sys_step (ActCall g OpPop) s =
       {| sys_queue := sys_queue s; callers := <[g := Parked]> (callers s) |}) ∧
  (∀ a s g,
     callers s !! g = Some Parked →
     (∀ g', a ≠ ActCall g' OpBroadcast) → a ≠ ActWake g →
     callers (sys_step a s) !! g = Some Parked) ∧
  (∀ s g h,
     callers s !! g = Some Parked → callers s !! h = None →
     sys_step (ActCall h OpBroadcast) s =
       {| sys_queue := sys_queue s; callers := wake <$> callers s |} ∧
     callers (sys_step (ActCall h OpBroadcast) s) !! g = Some Woken) ∧
  (∀ s g,
     callers s !! g = Some Woken →
     (heap.Len (queue (sys_queue s)) = 0 → closed (sys_queue s) = false →
        sys_step (ActResume g) s =
          {| sys_queue := sys_queue s; callers := <[g := Parked]> (callers s) |}) ∧
     (heap.Len (queue (sys_queue s)) = 0 → closed (sys_queue s) = true →
        sys_step (ActResume g) s =
          {| sys_queue := sys_queue s;
             callers := <[g := Returned None None]> (callers s) |}) ∧
     (heap.Len (queue (sys_queue s)) ≠ 0 →
        ∃ x, head (heap.List (queue (sys_queue s))) = Some x ∧
             callers (sys_step (ActResume g) s) !! g =
               Some (Returned (Some (popped x)) None))) ∧
  (∀ s g h pInfo,
     callers s !! g = Some Parked → callers s !! h = None →
     heap.Len (queue (sys_queue s)) = 0 →
     callers (sys_run [ActCall h (add pInfo); ActCall h OpBroadcast; ActResume g] s) !! g =
       Some (Returned (Some (popped pInfo)) None)) ∧
  (∀ s g h,
     callers s !! g = Some Parked → callers s !! h = None →
     heap.Len (queue (sys_queue s)) = 0 →
     callers (sys_run [ActCall h OpClose; ActCall h OpBroadcast; ActResume g] s) !! g =
       Some (Returned None None)) ∧
  (∀ a s g,
     callers (sys_step a s) !! g = Some Parked →
     callers s !! g = Some Parked ∨ a = ActCall g OpPop ∨ a = ActResume g) ∧
  (∀ s g o,
     o ≠ OpPop → callers s !! g ≠ Some Parked →
     callers (sys_step (ActCall g o) s) !! g ≠ Some Parked).
Proof.
  split; [|split; [|split; [|split; [|split; [|split; [|split]]]]]].
  - intros s g Hg Hlen Hc.
    rewrite sys_step_call_idle by (rewrite Hg; done).
    by rewrite pop_empty_open.
  - apply parked_until_woken.
  - intros s g h Hg Hh.
    rewrite sys_step_call_idle by (rewrite Hh; done).
    split; [done|]. simpl. by rewrite lookup_fmap, Hg.
  - intros s g Hg. rewrite sys_step_resume by done. split; [|split].
    + intros Hlen Hc. by rewrite pop_empty_open.
    + intros Hlen Hc. by rewrite pop_empty_closed.
    + intros Hlen. destruct (pop_nonempty_head _ Hlen) as (x & Hx & Hpop).
      exists x. split; [done|]. simpl. by rewrite lookup_insert_eq, Hpop.
  - intros s g h pInfo Hg Hh Hlen. cbn [sys_run].
    rewrite (sys_step_call_idle h (add pInfo)) by (rewrite Hh; done).
    unfold add at 1.
    rewrite sys_step_call_idle by (simpl; rewrite Hh; done).
    rewrite sys_step_resume by (simpl; by rewrite lookup_fmap, Hg).
    simpl. rewrite lookup_insert_eq.
    destruct (add_pop_round pInfo (sys_queue s)) as (_ & _ & [x Hx]);
      [by apply heap_Len_zero|].
    simpl in Hx.
    set (aq1 := activeQ.underLock [activeQ.callAddOrUpdate pInfo] (sys_queue s)) in *.
    assert (Hd1 : heap.data (queue aq1) = [(heap.key pInfo, pInfo)]).
    { unfold aq1. simpl. unfold heap.AddOrUpdate, heap.Has, heap.Get.
      apply heap_Len_zero in Hlen. rewrite Hlen. done. }
    assert (Hlen1 : heap.Len (queue aq1) ≠ 0) by (unfold heap.Len; by rewrite Hd1).
    destruct (pop_nonempty aq1 Hlen1) as (k & y & d & aq' & Hd & Hpop & _).
    rewrite Hpop. simpl. rewrite Hd1 in Hd. by simplify_eq.
  - intros s g h Hg Hh Hlen. cbn [sys_run].
    rewrite (sys_step_call_idle h OpClose) by (rewrite Hh; done).
    rewrite sys_step_call_idle by (simpl; rewrite Hh; done).
    rewrite sys_step_resume by (simpl; by rewrite lookup_fmap, Hg).
    simpl. rewrite lookup_insert_eq.
    by rewrite pop_empty_closed.
  - apply parked_only_in_pop.
  - intros s g o Ho Hg Hparked.
    apply parked_only_in_pop in Hparked as [?|[?|?]]; congruence.
Qed.

(** Two consumers block on an empty queue; [close] and [broadcast] make both
    return (nil, nil).  Without the [broadcast] they would stay parked. *)
Example close_wakes_waiters :
  let s0 := {| sys_queue := newActiveQueue (heap.New sampleLess) true; callers := ∅ |} in
  let blocked := sys_run [ActCall 1%nat OpPop; ActCall 2%nat OpPop] s0 in
  let s := sys_run [ActCall 0%nat OpClose; ActCall 0%nat OpBroadcast;
                    ActResume 1%nat; ActResume 2%nat] blocked in
  callers blocked !! 1%nat = Some Parked ∧
  callers blocked !! 2%nat = Some Parked ∧
  callers (sys_run [ActCall 0%nat OpClose; ActResume 1%nat] blocked) !! 1%nat = Some Parked ∧
  callers s !! 1%nat = Some (Returned None None) ∧
  callers s !! 2%nat = Some (Returned None None).
Proof. vm_compute. done. Qed.

(** Two consumers block; one pod is enqueued and broadcast: the first to run
    gets the pod, the other one parks again. *)
Example enqueue_wakes_waiters :
  let s0 := {| sys_queue := newActiveQueue (heap.New sampleLess) true; callers := ∅ |} in
  let s := sys_run [ActCall 1%nat OpPop; ActCall 2%nat OpPop;
                    ActCall 0%nat (add (sampleInfo "X" 0 0)); ActCall 0%nat OpBroadcast;
                    ActResume 2%nat; ActResume 1%nat] s0 in
  callers s !! 2%nat = Some (Returned (Some (popped (sampleInfo "X" 0 0))) None) ∧
  callers s !! 1%nat = Some Parked ∧
  activeQ.schedulingCycle (sys_queue s) = 1.
Proof. vm_compute. done. Qed.

(** ** The in-flight bookkeeping after any sequence of calls *)

Lemma reachable_from_new q hints ops : reachable (run ops (newActiveQueue q hints)).
Proof. apply reachable_run, reachable_new. Qed.

(** X1.  After every sequence of calls on a new queue, every element that
    [inFlightPods] records is linked in the in-flight list and holds the pod
    with the UID it is recorded under; no element is linked twice; the list
    does not begin with a cluster event; and the list is empty only if no pod
    is in flight. *)
Theorem inFlight_bookkeeping_invariant (q : heap.Heap) (hints : bool) (ops : list Op) :
  let aq := run ops (newActiveQueue q hints) in
  (∀ uid e, inFlightPods aq !! uid = Some e →
     e ∈ golist.elems (inFlightEvents aq) ∧
     ∃ p, golist.Value e = PodMarker p ∧ UID p = uid ∧
          PodMarker p ∈ activeQ.listInFlightEvents aq) ∧
  NoDup (golist.addr <$> golist.elems (inFlightEvents aq)) ∧
  match activeQ.listInFlightEvents aq with
  | [] => inFlightPods aq = ∅
  | v :: _ => isPodMarker v = true
  end.
Proof.
  intros aq.
  pose proof (reachable_consistent aq (reachable_from_new q hints ops)) as Hc.
  split; [|split].
  - intros uid e He.
    destruct (recorded_linked _ Hc _ _ He) as [Hin (p & Hp & Hu)].
    split; [done|]. exists p. split; [done|]. split; [done|].
    unfold activeQ.listInFlightEvents. rewrite <- Hp. by apply list_elem_of_fmap_2.
  - by destruct Hc.
  - pose proof (front_marker _ Hc) as Hfront.
    unfold frontIsPodMarker, golist.Front in Hfront.
    unfold activeQ.listInFlightEvents.
    destruct (golist.elems (inFlightEvents aq)) as [|y es] eqn:Hes; simpl in *; [|done].
    destruct (decide (inFlightPods aq = ∅)) as [|Hne]; [done|].
    by apply consistent_some_linked in Hne.
Qed.

(** ** listInFlightPods *)

Lemma mapM_assertPod (ml : list (string * golist.Element)) :
  Forall (λ ue, ∃ p, golist.Value ue.2 = PodMarker p ∧ UID p = ue.1) ml →
  ∃ pods, mapM activeQ.assertPod ml.*2 = Some pods ∧
          UID <$> pods = ml.*1 ∧
          Forall2 (λ ue p, golist.Value ue.2 = PodMarker p) ml pods.
Proof.
  induction 1 as [|[uid e] ml (p & Hp & Hu) _ (pods & Hm & Hk & Hf)]; simpl in *.
  - by exists [].
  - exists (p :: pods).
    assert (He : activeQ.assertPod e = Some p) by (unfold activeQ.assertPod; by rewrite Hp).
    change (list_fmap _ _ snd ml) with (ml.*2). rewrite He, Hm. simpl.
    split; [done|]. split; [by f_equal|].
    by constructor.
Qed.

(** X2.  After every sequence of calls on a new queue, the type assertion in
    [listInFlightPods] does not panic: the call returns one pod for each key
    of [inFlightPods], the pod carries that key as its UID, and it is a pod
    of the in-flight list. *)
Theorem listInFlightPods_never_panics (q : heap.Heap) (hints : bool) (ops : list Op) :
  let aq := run ops (newActiveQueue q hints) in
  ∃ pods,
    exec OpListInFlightPods aq = (aq, RetPods pods) ∧
    length pods = size (inFlightPods aq) ∧
    NoDup (UID <$> pods) ∧
    (∀ uid, uid ∈ UID <$> pods ↔ is_Some (inFlightPods aq !! uid)) ∧
    (∀ p, p ∈ pods → PodMarker p ∈ activeQ.listInFlightEvents aq).
Proof.
  intros aq.
  pose proof (reachable_consistent aq (reachable_from_new q hints ops)) as Hc.
  destruct (mapM_assertPod (map_to_list (inFlightPods aq))) as (pods & Hm & Hk & Hf).
  { apply Forall_forall. intros [uid e] Hin%elem_of_map_to_list. simpl.
    by destruct (recorded_linked _ Hc _ _ Hin) as [_ ?]. }
  exists pods. split; [|split; [|split; [|split]]].
  - simpl. unfold activeQ.listInFlightPods. by rewrite Hm.
  - rewrite <- (length_fmap UID), Hk, length_fmap. apply length_map_to_list.
  - rewrite Hk. apply NoDup_fst_map_to_list.
  - intros uid. rewrite Hk. split.
    + intros ([uid' e] & -> & Hin%elem_of_map_to_list)%list_elem_of_fmap. by eexists.
    + intros [e He]. apply list_elem_of_fmap. exists (uid, e). split; [done|].
      by apply elem_of_map_to_list.
  - intros p Hp. apply list_elem_of_lookup in Hp as [i Hi].
    destruct (Forall2_lookup_r _ _ _ _ _ Hf Hi) as ([uid e] & Hue & Hv).
    apply list_elem_of_lookup_2, elem_of_map_to_list in Hue. simpl in Hv.
    destruct (recorded_linked _ Hc _ _ Hue) as [Hin _].
    unfold activeQ.listInFlightEvents. rewrite <- Hv. by apply list_elem_of_fmap_2.
Qed.

(** ** No pod in flight, nothing in the list *)

Lemma run_from_new_markersRecorded q hints ops :
  popsOnlyQueued ops (newActiveQueue q hints) →
  markersRecorded (run ops (newActiveQueue q hints)).
Proof.
  intros Hpops. apply run_markersRecorded; [|apply newActiveQueue_markersRecorded|done].
  apply newActiveQueue_consistent.
Qed.

(** X3.  When no [pop] of the sequence returns a pod that is in flight at
    that moment, every pod of the in-flight list is the one recorded for its
    UID, and the list is empty exactly when no pod is in flight: once the
    last in-flight pod is done, no pod and no event is left.
    [addEventIfAnyInFlight] then records an event exactly when the list is
    not empty. *)
Theorem inFlight_list_empty_iff_none_in_flight
    (q : heap.Heap) (hints : bool) (ops : list Op) :
  popsOnlyQueued ops (newActiveQueue q hints) →
  let aq := run ops (newActiveQueue q hints) in
  (inFlightPods aq = ∅ ↔ activeQ.listInFlightEvents aq = []) ∧
  (∀ p, PodMarker p ∈ activeQ.listInFlightEvents aq →
     ∃ e, inFlightPods aq !! UID p = Some e ∧ golist.Value e = PodMarker p) ∧
  (∀ oldObj newObj ev,
     (activeQ.addEventIfAnyInFlight oldObj newObj ev aq).2 =
       bool_decide (activeQ.listInFlightEvents aq ≠ [])).
Proof.
  intros Hpops aq.
  pose proof (reachable_consistent aq (reachable_from_new q hints ops)) as Hc.
  pose proof (run_from_new_markersRecorded q hints ops Hpops) as Hrec. fold aq in Hrec.
  assert (Hiff : inFlightPods aq = ∅ ↔ activeQ.listInFlightEvents aq = []).
  { unfold activeQ.listInFlightEvents. split.
    - intros Hm. pose proof (front_marker _ Hc) as Hfront.
      unfold frontIsPodMarker, golist.Front in Hfront.
      destruct (golist.elems (inFlightEvents aq)) as [|y es] eqn:Hes; [done|].
      simpl in Hfront. destruct (golist.Value y) as [p|] eqn:Hy; [|done].
      assert (Hin : y ∈ golist.elems (inFlightEvents aq)) by (rewrite Hes; left).
      specialize (Hrec _ _ Hin Hy). by rewrite Hm, lookup_empty in Hrec.
    - intros Hnil%fmap_nil_inv.
      destruct (decide (inFlightPods aq = ∅)) as [|Hne]; [done|].
      by apply consistent_some_linked in Hne. }
  split; [done|]. split.
  - intros p (y & Hy & Hin)%list_elem_of_fmap. exists y. split; [|done].
    by apply Hrec.
  - intros oldObj newObj ev. unfold activeQ.addEventIfAnyInFlight.
    destruct (decide (size (inFlightPods aq) ≠ 0%nat)) as [Hsz|Hsz]; simpl.
    + symmetry. apply bool_decide_eq_true. rewrite <- Hiff.
      intros Hm. by rewrite Hm, map_size_empty in Hsz.
    + symmetry. apply bool_decide_eq_false. intros Hne. apply Hne, Hiff.
      apply map_size_empty_inv. destruct (size (inFlightPods aq)); [done|].
      exfalso. by apply Hsz.
Qed.

(** A and B are popped, an event is recorded, and both are done. *)
Lemma inFlight_list_empty_iff_none_in_flight_witness :
  let q := heap.New sampleLess in
  let ops := [add (sampleInfo "A" 5 0); add (sampleInfo "B" 0 1); OpPop; OpPop;
              OpAddEventIfAnyInFlight nilObj (nodeObj "n1") NodeAdd;
              OpDone "B"; OpDone "A"] in
  let aq := run ops (newActiveQueue q true) in
  popsOnlyQueued ops (newActiveQueue q true) ∧
  ((inFlightPods aq = ∅ ↔ activeQ.listInFlightEvents aq = []) ∧
   (∀ p, PodMarker p ∈ activeQ.listInFlightEvents aq →
      ∃ e, inFlightPods aq !! UID p = Some e ∧ golist.Value e = PodMarker p) ∧
   (∀ oldObj newObj ev,
      (activeQ.addEventIfAnyInFlight oldObj newObj ev aq).2 =
        bool_decide (activeQ.listInFlightEvents aq ≠ []))).
Proof.
  intros q ops.
  assert (H1 : popsOnlyQueued ops (newActiveQueue q true)).
  { repeat split; intros x Hx; vm_compute in Hx;
      first [discriminate | by injection Hx as <-]. }
  split; [done|].
  exact (inFlight_list_empty_iff_none_in_flight q true ops H1).
Defined.

(** ** A pod that is popped again while in flight *)

Lemma exec_orphaned o aq e :
  inFlightConsistent aq → orphaned aq e → orphaned (exec o aq).1 e.
Proof.
  intros Hc (Hin & Hmark & Hnot). unfold orphaned.
  pose proof (addrs_allocated _ Hc _ Hin) as Halloc.
  destruct (exec_inFlight o aq) as
    [(Hm & Hl & _)|[(x & _ & _ & Hl & Hm)|[(ev & _ & _ & _ & Hm & Hl)|(uid & e' & _ & He' & Hm & Hl)]]];
    rewrite Hm, Hl; simpl.
  - done.
  - split; [apply elem_of_app; by left|]. split; [done|].
    intros uid. destruct (decide (UID (pod x) = uid)) as [<-|Hne].
    + rewrite lookup_insert_eq. intros [= <-]. simpl in Halloc. lia.
    + rewrite lookup_insert_ne by done. apply Hnot.
  - split; [apply elem_of_app; by left|]. done.
  - destruct (recorded_linked _ Hc _ _ He') as [Hin' _].
    split; [|split; [done|]].
    + apply dropEvents_marker; [|done]. apply remove_addr_other; [done|].
      intros Haddr. apply (addr_inj _ _ _ (addrs_distinct _ Hc) Hin Hin') in Haddr.
      subst e'. by apply (Hnot uid).
    + intros uid' Hl'. apply lookup_delete_Some in Hl' as [_ Hl'].
      by apply (Hnot uid').
Qed.

Lemma run_orphaned ops aq e :
  inFlightConsistent aq → orphaned aq e → orphaned (run ops aq) e.
Proof.
  revert aq. induction ops as [|o ops IH]; intros aq Hc Ho; simpl; [done|].
  apply IH; [by apply exec_consistent|by apply exec_orphaned].
Qed.

(** X4.  With hints enabled, a [pop] that returns a pod whose UID is already
    in flight records the new element in place of the earlier one.  The
    earlier element stays linked in the list and is recorded under no UID,
    whatever is called afterwards, the [done] of that UID included; so the
    list is never empty again. *)
Theorem repop_orphans_earlier_marker
    (aq aq1 : activeQueue) (pInfo : QueuedPodInfo) (e : golist.Element) (ops : list Op) :
  reachable aq →
  isSchedulingQueueHintEnabled aq = true →
  activeQ.pop aq = (aq1, activeQ.popReturn (Some pInfo) None) →
  inFlightPods aq !! UID (pod pInfo) = Some e →
  let aq' := run ops aq1 in
  orphaned aq' e ∧
  golist.Value e ∈ activeQ.listInFlightEvents aq' ∧
  activeQ.listInFlightEvents aq' ≠ [].
Proof.
  intros Hreach Hhints Hpop He aq'.
  pose proof (reachable_consistent _ Hreach) as Hc.
  assert (Hc1 : inFlightConsistent aq1).
  { pose proof (exec_consistent OpPop aq Hc) as H. simpl in H. by rewrite Hpop in H. }
  assert (Hlen : heap.Len (queue aq) ≠ 0).
  { destruct (pop_cases aq) as [(_ & _ & H)|[(_ & _ & H)|(H & _)]];
      [rewrite H in Hpop; by simplify_eq..|done]. }
  destruct (pop_nonempty aq Hlen) as (k & x & d & aq0 & _ & Hpop' & _ & _ & _ & _ & Hf).
  rewrite Hpop in Hpop'. simplify_eq. rewrite Hhints in Hf. destruct Hf as [Hl Hm].
  simpl in He.
  destruct (recorded_linked _ Hc _ _ He) as [Hin (p & Hp & Hu)].
  assert (Horph : orphaned aq0 e).
  { unfold orphaned. rewrite Hl, Hm. simpl.
    split; [apply elem_of_app; by left|]. split; [by rewrite Hp|].
    intros uid. destruct (decide (UID (pod x) = uid)) as [<-|Hne].
    - rewrite lookup_insert_eq. intros [= <-].
      pose proof (addrs_allocated _ Hc _ Hin) as Halloc. simpl in Halloc. lia.
    - rewrite lookup_insert_ne by done. intros He'.
      destruct (recorded_linked _ Hc _ _ He') as [_ (p' & Hp' & Hu')]. congruence. }
  pose proof (run_orphaned ops aq0 e Hc1 Horph) as Horph'. fold aq' in Horph'.
  split; [done|]. destruct Horph' as (Hin' & _ & _).
  assert (Hv : golist.Value e ∈ activeQ.listInFlightEvents aq')
    by (by apply list_elem_of_fmap_2).
  split; [done|].
  intros Hnil. rewrite Hnil in Hv. by apply elem_of_nil in Hv.
Qed.

(** A is popped, enqueued again and popped again; then it is done, and B is
    enqueued, popped and done. *)
Lemma repop_orphans_earlier_marker_witness :
  let aq := run [add (sampleInfo "A" 0 0); OpPop; add (sampleInfo "A" 0 0)]
              (newActiveQueue (heap.New sampleLess) true) in
  let aq1 := (activeQ.pop aq).1 in
  let pInfo := popped (sampleInfo "A" 0 0) in
  let e := {| golist.addr := 0; golist.Value := PodMarker (samplePod "A" 0) |} in
  let ops := [OpDone "A"; add (sampleInfo "B" 0 1); OpPop; OpDone "B"] in
  let aq' := run ops aq1 in
  (reachable aq ∧
   isSchedulingQueueHintEnabled aq = true ∧
   activeQ.pop aq = (aq1, activeQ.popReturn (Some pInfo) None) ∧
   inFlightPods aq !! UID (pod pInfo) = Some e) ∧
  (orphaned aq' e ∧
   golist.Value e ∈ activeQ.listInFlightEvents aq' ∧
   activeQ.listInFlightEvents aq' ≠ []).
Proof.
  intros aq aq1 pInfo e ops.
  assert (H1 : reachable aq) by apply reachable_run, reachable_new.
  assert (H2 : isSchedulingQueueHintEnabled aq = true) by reflexivity.
  assert (H3 : activeQ.pop aq = (aq1, activeQ.popReturn (Some pInfo) None))
    by (vm_compute; reflexivity).
  assert (H4 : inFlightPods aq !! UID (pod pInfo) = Some e)
    by (vm_compute; reflexivity).
  split; [done|].
  exact (repop_orphans_earlier_marker aq aq1 pInfo e ops H1 H2 H3 H4).
Defined.

(** In that run nothing is in flight at the end, and the list still holds the
    pod of the first attempt of A. *)
Example repop_leaves_pod_in_list :
  let aq := run [add (sampleInfo "A" 0 0); OpPop; add (sampleInfo "A" 0 0); OpPop;
                 OpDone "A"; add (sampleInfo "B" 0 1); OpPop; OpDone "B"]
              (newActiveQueue (heap.New sampleLess) true) in
  inFlightPods aq = ∅ ∧
  activeQ.listInFlightEvents aq = [PodMarker (samplePod "A" 0)].
Proof. vm_compute. done. Qed.

(** ** done and the other in-flight pods *)

(** X5.  In a reachable state, [done] of one pod leaves the result of
    [clusterEventsForPod] for every pod with another UID as it was: unlinking
    the pod and pruning the leading events removes no event that another
    in-flight pod still has to see. *)
Theorem done_keeps_events_of_other_pods
    (aq : activeQueue) (uid : string) (pInfo : QueuedPodInfo) :
  reachable aq →
  UID (pod pInfo) ≠ uid →
  activeQ.clusterEventsForPod pInfo (activeQ.done uid aq) =
    activeQ.clusterEventsForPod pInfo aq.
Proof.
  intros Hc%reachable_consistent Hne.
  destruct (inFlightPods aq !! uid) as [e'|] eqn:He'; [|by rewrite done_not_in_flight].
  unfold activeQ.clusterEventsForPod.
  destruct (inFlightPods aq !! UID (pod pInfo)) as [e|] eqn:He.
  - destruct (window_step (OpDone uid) aq (UID (pod pInfo)) e Hc He) as [Hl Hev].
    { congruence. }
    { intros x Hx. simpl in Hx. done. }
    simpl in Hl, Hev. rewrite Hl, Hev. by rewrite app_nil_r.
  - destruct (done_inFlight uid e' aq He') as [Hm _].
    by rewrite Hm, lookup_delete_ne, He.
Qed.

(** A and B are in flight with one recorded event; A is done. *)
Lemma done_keeps_events_of_other_pods_witness :
  let aq := run [add (sampleInfo "A" 5 0); add (sampleInfo "B" 0 1); OpPop; OpPop;
                 OpAddEventIfAnyInFlight nilObj (nodeObj "n1") NodeAdd]
              (newActiveQueue (heap.New sampleLess) true) in
  let uid := "A" in
  let pInfo := sampleInfo "B" 0 1 in
  (reachable aq ∧ UID (pod pInfo) ≠ uid) ∧
  activeQ.clusterEventsForPod pInfo (activeQ.done uid aq) =
    activeQ.clusterEventsForPod pInfo aq.
Proof.
  intros aq uid pInfo.
  assert (H1 : reachable aq) by apply reachable_run, reachable_new.
  assert (H2 : UID (pod pInfo) ≠ uid) by (vm_compute; discriminate).
  split; [done|].
  exact (done_keeps_events_of_other_pods aq uid pInfo H1 H2).
Defined.

(** ** The events of two in-flight pods *)

Lemma collectEvents_suffix (es1 es2 : list golist.Element) :
  es1 `suffix_of` es2 →
  activeQ.collectEvents es1 `suffix_of` activeQ.collectEvents es2.
Proof. intros [k ->]. rewrite collectEvents_app. by eexists. Qed.

Lemma clusterEventsForPod_suffix aq pInfo :
  ∃ es, es `suffix_of` golist.elems (inFlightEvents aq) ∧
        (activeQ.clusterEventsForPod pInfo aq).1 = activeQ.collectEvents es.
Proof.
  unfold activeQ.clusterEventsForPod.
  destruct (inFlightPods aq !! UID (pod pInfo)) as [e|]; simpl.
  - eexists. split; [apply following_suffix|done].
  - exists []. split; [apply suffix_nil|done].
Qed.

(** X6.  In every state, the event lists that [clusterEventsForPod] returns
    for two pods are nested: one of them is a suffix of the other, and each is
    a suffix of the events of the whole in-flight list.  Two attempts never
    see the events they share in different orders, and the attempt that sees
    more sees the earlier events in addition. *)
Theorem clusterEvents_of_two_pods_are_nested
    (aq : activeQueue) (p1 p2 : QueuedPodInfo) :
  let ev1 := (activeQ.clusterEventsForPod p1 aq).1 in
  let ev2 := (activeQ.clusterEventsForPod p2 aq).1 in
  (ev1 `suffix_of` ev2 ∨ ev2 `suffix_of` ev1) ∧
  ev1 `suffix_of` activeQ.collectEvents (golist.elems (inFlightEvents aq)).
Proof.
  intros ev1 ev2.
  destruct (clusterEventsForPod_suffix aq p1) as (es1 & Hs1 & H1).
  destruct (clusterEventsForPod_suffix aq p2) as (es2 & Hs2 & H2).
  unfold ev1, ev2. rewrite H1, H2. split.
  - destruct (suffix_weak_total _ _ _ Hs1 Hs2); [left|right];
      by apply collectEvents_suffix.
  - by apply collectEvents_suffix.
Qed.

(** ** pop followed by done *)

Lemma remove_addr_app_fresh a (es : list golist.Element) x :
  a ∉ golist.addr <$> es → golist.addr x = a →
  golist.remove_addr a (es ++ [x]) = es.
Proof.
  induction es as [|y es IH]; simpl.
  - intros _ ->. by rewrite decide_True.
  - intros [Hne Hnotin]%not_elem_of_cons Hx.
    rewrite decide_False by done. f_equal. by apply IH.
Qed.

Lemma dropEvents_front_id (es : list golist.Element) :
  match head es with
  | None => True
  | Some e => isPodMarker (golist.Value e) = true
  end →
  dropEvents es = es.
Proof. destruct es as [|y es]; simpl; [done|]. by destruct (golist.Value y). Qed.

(** X7.  In a reachable state, a [pop] that returns a pod which is not in
    flight, followed by the [done] of that pod, leaves [inFlightPods] and the
    entries of the in-flight list as they were before the [pop], and with
    them the result of [clusterEventsForPod] for every pod. *)
Theorem pop_then_done_restores_in_flight
    (aq aq1 : activeQueue) (pInfo : QueuedPodInfo) :
  reachable aq →
  activeQ.pop aq = (aq1, activeQ.popReturn (Some pInfo) None) →
  inFlightPods aq !! UID (pod pInfo) = None →
  let aq2 := activeQ.done (UID (pod pInfo)) aq1 in
  inFlightPods aq2 = inFlightPods aq ∧
  activeQ.listInFlightEvents aq2 = activeQ.listInFlightEvents aq ∧
  (∀ p, activeQ.clusterEventsForPod p aq2 = activeQ.clusterEventsForPod p aq).
Proof.
  intros Hreach Hpop Hnone aq2.
  pose proof (reachable_consistent _ Hreach) as Hc.
  assert (Hlen : heap.Len (queue aq) ≠ 0).
  { destruct (pop_cases aq) as [(_ & _ & H)|[(_ & _ & H)|(H & _)]];
      [rewrite H in Hpop; by simplify_eq..|done]. }
  destruct (pop_nonempty aq Hlen) as (k & x & d & aq0 & _ & Hpop' & _ & _ & _ & _ & Hf).
  rewrite Hpop in Hpop'. simplify_eq. simpl in Hnone.
  change (UID (pod (popped x))) with (UID (pod x)) in aq2.
  assert (Heq : inFlightPods aq2 = inFlightPods aq ∧
                golist.elems (inFlightEvents aq2) = golist.elems (inFlightEvents aq)).
  { destruct (isSchedulingQueueHintEnabled aq).
    - destruct Hf as [Hl Hm].
      destruct (done_inFlight (UID (pod x))
                  {| golist.addr := golist.fresh (inFlightEvents aq);
                     golist.Value := PodMarker (pod x) |} aq0) as [Hm2 Hl2].
      { rewrite Hm. simpl. by rewrite lookup_insert_eq. }
      unfold aq2. rewrite Hm2, Hl2, Hm, Hl. simpl. split.
      + by apply delete_insert_id.
      + rewrite remove_addr_app_fresh; [|intros (y & Hy & Hin)%list_elem_of_fmap|done].
        * apply dropEvents_front_id. apply (front_marker _ Hc).
        * apply (addrs_allocated _ Hc) in Hin. lia.
    - destruct Hf as [Hl Hm]. unfold aq2.
      rewrite done_not_in_flight by (by rewrite Hm). by rewrite Hl, Hm. }
  destruct Heq as [Hm Hes].
  split; [done|]. split.
  - unfold activeQ.listInFlightEvents. by rewrite Hes.
  - intros p. unfold activeQ.clusterEventsForPod. by rewrite Hm, Hes.
Qed.

(** A is in flight with one recorded event; B is popped and done. *)
Lemma pop_then_done_restores_in_flight_witness :
  let aq := run [add (sampleInfo "A" 5 0); add (sampleInfo "B" 0 1); OpPop;
                 OpAddEventIfAnyInFlight nilObj (nodeObj "n1") NodeAdd]
              (newActiveQueue (heap.New sampleLess) true) in
  let aq1 := (activeQ.pop aq).1 in
  let pInfo := popped (sampleInfo "B" 0 1) in
  let aq2 := activeQ.done (UID (pod pInfo)) aq1 in
  (reachable aq ∧
   activeQ.pop aq = (aq1, activeQ.popReturn (Some pInfo) None) ∧
   inFlightPods aq !! UID (pod pInfo) = None) ∧
  (inFlightPods aq2 = inFlightPods aq ∧
   activeQ.listInFlightEvents aq2 = activeQ.listInFlightEvents aq ∧
   (∀ p, activeQ.clusterEventsForPod p aq2 = activeQ.clusterEventsForPod p aq)).
Proof.
  intros aq aq1 pInfo.
  assert (H1 : reachable aq) by apply reachable_run, reachable_new.
  assert (H2 : activeQ.pop aq = (aq1, activeQ.popReturn (Some pInfo) None))
    by (vm_compute; reflexivity).
  assert (H3 : inFlightPods aq !! UID (pod pInfo) = None) by (vm_compute; reflexivity).
  split; [done|].
  exact (pop_then_done_restores_in_flight aq aq1 pInfo H1 H2 H3).
Defined.

(** ** The order of done *)

Lemma remove_addr_comm a b (es : list golist.Element) :
  golist.remove_addr a (golist.remove_addr b es) =
    golist.remove_addr b (golist.remove_addr a es).
Proof.
  destruct (decide (a = b)) as [->|Hab]; [done|].
  induction es as [|y es IH]; simpl; [done|].
  destruct (decide (golist.addr y = b)) as [Hb|Hb];
    destruct (decide (golist.addr y = a)) as [Ha|Ha]; simpl.
  - congruence.
  - by rewrite decide_True.
  - by rewrite decide_True.
  - rewrite !decide_False by done. by f_equal.
Qed.

Lemma dropEvents_remove_dropEvents a (es : list golist.Element) :
  (∀ x, x ∈ es → golist.addr x = a → isPodMarker (golist.Value x) = true) →
  dropEvents (golist.remove_addr a (dropEvents es)) =
    dropEvents (golist.remove_addr a es).
Proof.
  induction es as [|y es IH]; simpl; [done|]. intros Hm.
  destruct (golist.Value y) eqn:Hy; [done|].
  assert (Hne : golist.addr y ≠ a).
  { intros Ha. specialize (Hm y (list_elem_of_here _ _) Ha). by rewrite Hy in Hm. }
  rewrite decide_False by done. simpl. rewrite Hy. apply IH.
  intros x Hx. apply Hm. by right.
Qed.

Lemma done_in_flight_eq uid e aq :
  inFlightPods aq !! uid = Some e →
  activeQ.done uid aq =
    set_inFlight aq (base.delete uid (inFlightPods aq))
      {| golist.elems :=
           dropEvents (golist.remove_addr (golist.addr e) (golist.elems (inFlightEvents aq)));
         golist.fresh := golist.fresh (inFlightEvents aq) |}.
Proof.
  intros He. unfold activeQ.done. rewrite He. simpl.
  by rewrite pruneFront_dropEvents.
Qed.

Lemma done_done u v eu ev aq :
  inFlightConsistent aq → u ≠ v →
  inFlightPods aq !! u = Some eu → inFlightPods aq !! v = Some ev →
  activeQ.done u (activeQ.done v aq) =
    set_inFlight aq (base.delete u (base.delete v (inFlightPods aq)))
      {| golist.elems :=
           dropEvents (golist.remove_addr (golist.addr eu)
                         (golist.remove_addr (golist.addr ev)
                            (golist.elems (inFlightEvents aq))));
         golist.fresh := golist.fresh (inFlightEvents aq) |}.
Proof.
  intros Hc Huv Hu Hv.
  destruct (recorded_linked _ Hc _ _ Hu) as [Hinu (pu & Hpu & _)].
  rewrite (done_in_flight_eq v ev aq Hv).
  rewrite (done_in_flight_eq u eu); [|simpl; by rewrite lookup_delete_ne].
  unfold set_inFlight. simpl. f_equal. f_equal.
  apply dropEvents_remove_dropEvents.
  intros x Hx%remove_addr_elem Hxa.
  apply (addr_inj _ _ _ (addrs_distinct _ Hc) Hx Hinu) in Hxa. subst x.
  by rewrite Hpu.
Qed.

(** X8.  In a reachable state the order in which two pods are done does not
    matter: [done(u)] after [done(v)] and [done(v)] after [done(u)] lead to
    the same queue state. *)
Theorem done_commutes (aq : activeQueue) (u v : string) :
  reachable aq →
  activeQ.done u (activeQ.done v aq) = activeQ.done v (activeQ.done u aq).
Proof.
  intros Hc%reachable_consistent.
  destruct (decide (u = v)) as [->|Huv]; [done|].
  destruct (inFlightPods aq !! u) as [eu|] eqn:Hu;
    destruct (inFlightPods aq !! v) as [ev|] eqn:Hv.
  - rewrite (done_done u v eu ev) by done.
    rewrite (done_done v u ev eu) by done.
    by rewrite delete_delete, remove_addr_comm.
  - rewrite (done_not_in_flight aq v) by done.
    apply eq_sym, done_not_in_flight.
    destruct (done_inFlight u eu aq Hu) as [-> _]. by rewrite lookup_delete_ne.
  - rewrite (done_not_in_flight aq u) by done.
    apply done_not_in_flight.
    destruct (done_inFlight v ev aq Hv) as [-> _]. by rewrite lookup_delete_ne.
  - by rewrite (done_not_in_flight aq v), (done_not_in_flight aq u),
      (done_not_in_flight aq v).
Qed.

(** A and B are in flight; events were recorded after each pop. *)
Lemma done_commutes_witness :
  let aq := run [add (sampleInfo "A" 5 0); add (sampleInfo "B" 0 1); OpPop;
                 OpAddEventIfAnyInFlight nilObj (nodeObj "n1") NodeAdd; OpPop;
                 OpAddEventIfPodInFlight (samplePod "B" 0) (samplePod "B" 1) PodUpdate]
              (newActiveQueue (heap.New sampleLess) true) in
  reachable aq ∧
  activeQ.done "A" (activeQ.done "B" aq) = activeQ.done "B" (activeQ.done "A" aq).
Proof.
  intros aq.
  assert (H1 : reachable aq) by apply reachable_run, reachable_new.
  split; [done|].
  exact (done_commutes aq "A" "B" H1).
Defined.

(** ** The pruning loop of done *)

(** X9.  The pruning loop of [done] terminates: run for as many rounds as
    the list has elements, it has reached its exit (a further round changes
    nothing, and the front of the list is nil or a pod).  It has removed
    exactly the cluster events in front of the first pod, and nothing
    else. *)
Theorem done_pruning_loop_terminates (l : golist.List) (n : nat) :
  (length (golist.elems l) ≤ n)%nat →
  let l' := activeQ.pruneFront n l in
  activeQ.pruneFront (S n) l = l' ∧
  frontIsPodMarker l' ∧
  golist.fresh l' = golist.fresh l ∧
  ∃ events,
    golist.elems l = events ++ golist.elems l' ∧
    Forall (λ e, isPodMarker (golist.Value e) = false) events.
Proof.
  intros Hlen l'. split; [by apply pruneFront_more_rounds|].
  unfold l'. rewrite pruneFront_dropEvents by done. clear.
  split; [apply dropEvents_front|]. split; [done|]. simpl.
  induction (golist.elems l) as [|y es (events & Hes & Hev)]; simpl.
  - by exists [].
  - destruct (golist.Value y) eqn:Hy.
    + by exists [].
    + exists (y :: events). split; [simpl; by f_equal|].
      constructor; [by rewrite Hy|done].
Qed.

Lemma done_pruning_loop_terminates_witness :
  let l := golist.Remove
             (inFlightEvents
                (run [add (sampleInfo "A" 5 0); add (sampleInfo "B" 0 1); OpPop;
                      OpAddEventIfAnyInFlight nilObj (nodeObj "n1") NodeAdd; OpPop]
                   (newActiveQueue (heap.New sampleLess) true)))
             {| golist.addr := 0; golist.Value := PodMarker (samplePod "A" 5) |} in
  let n := 2%nat in
  let l' := activeQ.pruneFront n l in
  (length (golist.elems l) ≤ n)%nat ∧
  (activeQ.pruneFront (S n) l = l' ∧
   frontIsPodMarker l' ∧
   golist.fresh l' = golist.fresh l ∧
   ∃ events,
     golist.elems l = events ++ golist.elems l' ∧
     Forall (λ e, isPodMarker (golist.Value e) = false) events).
Proof.
  intros l n.
  assert (H1 : (length (golist.elems l) ≤ n)%nat) by (vm_compute; lia).
  split; [done|].
  exact (done_pruning_loop_terminates l n H1).
Defined.

(** ** The calls of Dec on the gauges of unschedulable plugins *)

Lemma pop_Dec_calls aq q x :
  heap.Len (queue aq) ≠ 0 → heap.Pop (queue aq) = (q, inl x) →
  UnschedulableReason (activeQ.pop aq).1 =
    set_fold (λ plugin g, activeQ.Dec g (plugin, SchedulerName (pod x)))
      (UnschedulableReason aq) (UnschedulablePlugins x ∪ PendingPlugins x).
Proof.
  intros Hlen HPop. unfold activeQ.pop. rewrite decide_False by done. rewrite HPop.
  unfold golist.PushBack.
  destruct (isSchedulingQueueHintEnabled aq) eqn:Hh; simpl; rewrite ?Hh; done.
Qed.

Lemma foldr_Dec (s : string) (l : list string) (g : gmap (string * string) Z)
    (plugin sched : string) :
  NoDup l →
  default 0 (foldr (λ p g, activeQ.Dec g (p, s)) g l !! (plugin, sched)) =
    default 0 (g !! (plugin, sched)) -
    (if bool_decide (plugin ∈ l ∧ sched = s) then 1 else 0).
Proof.
  induction 1 as [|a l Hnotin Hnd IH].
  - simpl. lia.
  - cbn [foldr]. unfold activeQ.Dec at 1.
    destruct (decide ((a, s) = (plugin, sched))) as [Heq|Hne].
    + simplify_eq. rewrite lookup_insert_eq. simpl. rewrite IH.
      rewrite (bool_decide_eq_false_2 (plugin ∈ l ∧ sched = sched)) by (by intros [? _]).
      rewrite bool_decide_eq_true_2; [lia|]. split; [left|done].
    + rewrite lookup_insert_ne by done. rewrite IH. f_equal.
      rewrite (bool_decide_ext (plugin ∈ l ∧ sched = s) (plugin ∈ a :: l ∧ sched = s));
        [done|]. split.
      * intros [Hin ->]. split; [by right|done].
      * intros [[->|Hin]%elem_of_cons ->]; [done|by split].
Qed.

(** X10.  A [pop] that takes the entry [x] from the heap calls [Dec()]
    exactly once on the gauge of every plugin in the union of the entry's
    unschedulable and pending plugins, under the scheduler name of the pod
    (a plugin that is in both sets gets one call), and on no other gauge. *)
Theorem pop_calls_Dec_once
    (aq : activeQueue) (q : heap.Heap) (x : QueuedPodInfo) (plugin sched : string) :
  heap.Len (queue aq) ≠ 0 →
  heap.Pop (queue aq) = (q, inl x) →
  decCalls (activeQ.pop aq).1 plugin sched =
    decCalls aq plugin sched +
    (if bool_decide (plugin ∈ UnschedulablePlugins x ∪ PendingPlugins x ∧
                     sched = SchedulerName (pod x))
     then 1 else 0).
Proof.
  intros Hlen HPop. unfold decCalls. rewrite (pop_Dec_calls aq q x Hlen HPop).
  unfold set_fold. simpl. rewrite foldr_Dec by apply NoDup_elements.
  rewrite (bool_decide_ext
             (plugin ∈ elements (UnschedulablePlugins x ∪ PendingPlugins x) ∧
              sched = SchedulerName (pod x))
             (plugin ∈ UnschedulablePlugins x ∪ PendingPlugins x ∧
              sched = SchedulerName (pod x))); [lia|].
  by rewrite elem_of_elements.
Qed.

(** An entry with the unschedulable plugins NodeAffinity and TaintToleration
    and the pending plugin NodeAffinity. *)
Lemma pop_calls_Dec_once_witness :
  let x := {| pod := samplePod "A" 0; Timestamp := 0; Attempts := 0;
              UnschedulablePlugins := {["NodeAffinity"; "TaintToleration"]};
              PendingPlugins := {["NodeAffinity"]} |} in
  let aq := run [add x] (newActiveQueue (heap.New sampleLess) true) in
  let q := heap.New sampleLess in
  let plugin := "NodeAffinity" in
  let sched := "default-scheduler" in
  (heap.Len (queue aq) ≠ 0 ∧ heap.Pop (queue aq) = (q, inl x)) ∧
  decCalls (activeQ.pop aq).1 plugin sched =
    decCalls aq plugin sched +
    (if bool_decide (plugin ∈ UnschedulablePlugins x ∪ PendingPlugins x ∧
                     sched = SchedulerName (pod x))
     then 1 else 0).
Proof.
  intros x aq q plugin sched.
  assert (H1 : heap.Len (queue aq) ≠ 0) by (vm_compute; discriminate).
  assert (H2 : heap.Pop (queue aq) = (q, inl x)) by reflexivity.
  split; [done|].
  exact (pop_calls_Dec_once aq q x plugin sched H1 H2).
Defined.

Example pop_calls_Dec_sample :
  let x := {| pod := samplePod "A" 0; Timestamp := 0; Attempts := 0;
              UnschedulablePlugins := {["NodeAffinity"; "TaintToleration"]};
              PendingPlugins := {["NodeAffinity"]} |} in
  let aq := run [add x; OpPop] (newActiveQueue (heap.New sampleLess) true) in
  decCalls aq "NodeAffinity" "default-scheduler" = 1 ∧
  decCalls aq "TaintToleration" "default-scheduler" = 1 ∧
  decCalls aq "NodeAffinity" "other-scheduler" = 0 ∧
  decCalls aq "NodePorts" "default-scheduler" = 0.
Proof. vm_compute. done. Qed.

(** ** The length of the in-flight list *)

Lemma run_list_length ops aq :
  (length (golist.elems (inFlightEvents (run ops aq))) ≤
     length (golist.elems (inFlightEvents aq)) +
     (successfulPops ops aq + length (appendedEvents ops aq)))%nat.
Proof.
  revert aq. induction ops as [|o ops IH]; intros aq; [simpl; lia|].
  simpl run. rewrite successfulPops_cons, appendedEvents_cons, length_app.
  specialize (IH (exec o aq).1).
  destruct (exec_inFlight o aq) as
    [(_ & Hl & Hap)|[(x & -> & Hr & Hl & _)|[(ev & Hap & Hp & _ & _ & Hl)|(uid & e & -> & _ & _ & Hl)]]].
  - rewrite Hl in IH. rewrite Hap. simpl.
    destruct (poppedPod (exec o aq).2); lia.
  - rewrite Hl in IH. rewrite Hr. simpl in *. rewrite length_app in IH. simpl in IH. lia.
  - rewrite Hl in IH. rewrite Hap, Hp. simpl in *.
    rewrite length_app in IH. simpl in IH. lia.
  - rewrite Hl in IH. simpl in *.
    pose proof (sublist_length _ _ (dropEvents_sublist
      (golist.remove_addr (golist.addr e) (golist.elems (inFlightEvents aq))))).
    pose proof (sublist_length _ _ (remove_addr_sublist (golist.addr e)
      (golist.elems (inFlightEvents aq)))).
    lia.
Qed.

(** X12.  After every sequence of calls on a new queue, the in-flight list
    holds at most one entry for each [pop] that returned a pod and one for
    each event that an event-recording call appended; and a call makes the
    list longer by at most one entry. *)
Theorem inFlight_list_length_bound (q : heap.Heap) (hints : bool) (ops : list Op) :
  let aq0 := newActiveQueue q hints in
  (length (activeQ.listInFlightEvents (run ops aq0)) ≤
     successfulPops ops aq0 + length (appendedEvents ops aq0))%nat ∧
  (∀ o aq, length (activeQ.listInFlightEvents (exec o aq).1) ≤
             S (length (activeQ.listInFlightEvents aq)))%nat.
Proof.
  intros aq0. unfold activeQ.listInFlightEvents. split.
  - rewrite length_fmap. apply (run_list_length ops aq0).
  - intros o aq. rewrite !length_fmap.
    destruct (exec_inFlight o aq) as
      [(_ & Hl & _)|[(x & _ & _ & Hl & _)|[(ev & _ & _ & _ & _ & Hl)|(uid & e & _ & _ & _ & Hl)]]];
      rewrite Hl; simpl; rewrite ?length_app; simpl; [lia..|].
    pose proof (sublist_length _ _ (dropEvents_sublist
      (golist.remove_addr (golist.addr e) (golist.elems (inFlightEvents aq))))).
    pose proof (sublist_length _ _ (remove_addr_sublist (golist.addr e)
      (golist.elems (inFlightEvents aq)))).
    lia.
Qed.

(** ** No event is kept that no attempt will see *)

Lemma elem_of_collectEvents (es : list golist.Element) (ev : clusterEvent) :
  ev ∈ activeQ.collectEvents es ↔ ClusterEventRecord ev ∈ golist.Value <$> es.
Proof.
  induction es as [|y es IH]; simpl; [by rewrite !elem_of_nil|].
  destruct (golist.Value y) as [p|ev'] eqn:Hy; rewrite !elem_of_cons, IH.
  - split; [by right|]. by intros [?|?].
  - split; (intros [?|?]; [left; congruence|by right]).
Qed.

(** X13.  When no [pop] of the sequence returns a pod that is in flight at
    that moment and the in-flight list is not empty, its first entry is the
    pod of an in-flight attempt, and [clusterEventsForPod] returns for that
    pod all the events of the list: the list holds no event that no
    in-flight pod will see. *)
Theorem inFlight_list_holds_only_needed_events
    (q : heap.Heap) (hints : bool) (ops : list Op) :
  popsOnlyQueued ops (newActiveQueue q hints) →
  let aq := run ops (newActiveQueue q hints) in
  activeQ.listInFlightEvents aq ≠ [] →
  ∃ p rest,
    activeQ.listInFlightEvents aq = PodMarker p :: rest ∧
    is_Some (inFlightPods aq !! UID p) ∧
    ∀ pInfo, UID (pod pInfo) = UID p →
      (activeQ.clusterEventsForPod pInfo aq).2 = None ∧
      ∀ ev, ClusterEventRecord ev ∈ activeQ.listInFlightEvents aq ↔
            ev ∈ (activeQ.clusterEventsForPod pInfo aq).1.
Proof.
  intros Hpops aq Hne.
  pose proof (reachable_consistent aq (reachable_from_new q hints ops)) as Hc.
  pose proof (run_from_new_markersRecorded q hints ops Hpops) as Hrec. fold aq in Hrec.
  pose proof (front_marker _ Hc) as Hfront.
  unfold frontIsPodMarker, golist.Front in Hfront.
  unfold activeQ.listInFlightEvents in *.
  destruct (golist.elems (inFlightEvents aq)) as [|y es] eqn:Hes; [done|].
  simpl in Hfront. destruct (golist.Value y) as [p|] eqn:Hy; [|done].
  assert (Hin : y ∈ golist.elems (inFlightEvents aq)) by (rewrite Hes; left).
  pose proof (Hrec _ _ Hin Hy) as Hy'.
  exists p, (golist.Value <$> es). split; [simpl; by rewrite Hy|].
  split; [by eexists|].
  intros pInfo Hu. unfold activeQ.clusterEventsForPod.
  rewrite Hu, Hy', Hes. simpl. rewrite decide_True by done.
  split; [done|]. intros ev. rewrite elem_of_collectEvents, Hy, elem_of_cons.
  split; [by intros [?|?]|by right].
Qed.

(** A and B are in flight, an event was recorded after each [pop], and A,
    the earlier one, is done. *)
Lemma inFlight_list_holds_only_needed_events_witness :
  let q := heap.New sampleLess in
  let ops := [add (sampleInfo "A" 5 0); add (sampleInfo "B" 0 1); OpPop;
              OpAddEventIfAnyInFlight nilObj (nodeObj "n1") NodeAdd; OpPop;
              OpAddEventIfPodInFlight (samplePod "B" 0) (samplePod "B" 1) PodUpdate;
              OpDone "A"] in
  let aq := run ops (newActiveQueue q true) in
  (popsOnlyQueued ops (newActiveQueue q true) ∧
   activeQ.listInFlightEvents aq ≠ []) ∧
  ∃ p rest,
    activeQ.listInFlightEvents aq = PodMarker p :: rest ∧
    is_Some (inFlightPods aq !! UID p) ∧
    ∀ pInfo, UID (pod pInfo) = UID p →
      (activeQ.clusterEventsForPod pInfo aq).2 = None ∧
      ∀ ev, ClusterEventRecord ev ∈ activeQ.listInFlightEvents aq ↔
            ev ∈ (activeQ.clusterEventsForPod pInfo aq).1.
Proof.
  intros q ops aq.
  assert (H1 : popsOnlyQueued ops (newActiveQueue q true)).
  { repeat split; intros x Hx; vm_compute in Hx;
      first [discriminate | by injection Hx as <-]. }
  assert (H2 : activeQ.listInFlightEvents aq ≠ []) by (vm_compute; discriminate).
  split; [done|].
  exact (inFlight_list_holds_only_needed_events q true ops H1 H2).
Defined.
